(** * Top-K scored-hit collection (package [search], file [collect.go])

    A shallow embedding of the Go source and the properties of its
    specification that were checked against it.

    Modelling conventions.
    - [float64] is Rocq's primitive binary64 [float]; [==], [<] and [<=] are
      [PrimFloat.eqb], [PrimFloat.ltb] and [PrimFloat.leb] (IEEE comparisons,
      false on NaN).
    - [int] is the 64-bit Go integer, a [Z] with the wrap-around written out
      where the source adds ([wrap]).  Indices and loop counters stay below
      the length of a slice, so no wrap-around is written for them.
    - An [interface{}] value carries its dynamic type: the queue stores
      either a [ScoreDoc] value or a [*ScoreDoc]; a type assertion to
      [*ScoreDoc] panics on the former.
    - [*ScoreDoc] pointers are addresses into a store of objects, so that
      the in-place mutation done by [Collect] and the aliasing between the
      handle [pqTop] and the queue's entries are visible.
    - A panic is a result of its own ([Panic]); loops of [container/heap]
      run on fuel that is shown to be sufficient.

    What the development establishes about the source.
    - [newTocScoreDocCollector] stores its placeholders by value and then
      asserts them to be pointers: no capacity yields a collector
      ([newTocScoreDocCollector_panics]).  Properties of single calls are
      therefore stated over collector states, with the queue holding
      pointers to live objects as the methods assume.
    - [Collect] never refreshes the handle [pqTop]: an accepted hit replaces
      the least entry only while the handle designates the root
      ([Collect_accept_at_root]).
    - Extraction on a queue of live pointers never panics and clamps its
      window ([TopDocsRange_valid]); a bad range yields the empty result.
    - On a queue that is a heap of live pointers without NaN scores,
      extraction returns the window its range names, best first, recovers
      the greatest score of the queue and consumes the queue.
    - A run of [Collect] calls writes through the handle only and leaves
      the best score behind it; where the handle designates the root the
      replace-min step keeps the heap, as it always does on a queue of one
      slot. *)

From Stdlib Require Import ZArith Floats Lia.
From stdpp Require Import base option list sorting gmap strings.

Local Open Scope Z_scope.

(** ** Values *)

(** [type ScoreDoc struct { score float64; doc int }] *)
Record ScoreDoc : Type := mkScoreDoc { score : float; doc : Z }.

(** Address of a [ScoreDoc] object, the value of a non-nil [*ScoreDoc]. *)
Definition addr : Type := nat.

(** What an [interface{}] slot of [PriorityQueue.items] can hold in this
    package: a [ScoreDoc] by value, or a pointer to one. *)
Inductive any : Type :=
| AnyScoreDoc (v : ScoreDoc)
| AnyPtr (p : addr).

(** [type TopDocs struct { totalHits int; scoreDocs []ScoreDoc; maxScore float64 }] *)
Record TopDocs : Type :=
  mkTopDocs { totalHits : Z; scoreDocs : list ScoreDoc; maxScore : float }.

(** ** Panics *)

Inductive panic : Type :=
| TypeAssertion        (* interface conversion: interface {} is ScoreDoc, not *ScoreDoc *)
| IndexOutOfRange      (* runtime error: index out of range *)
| NilDereference       (* runtime error: invalid memory address or nil pointer dereference *)
| MakeSliceLen         (* runtime error: makeslice: len out of range *)
| Message (msg : string) (* panic("...") *)
| FuelExhausted.       (* artefact of the model; never produced, see [heap_down_fuel] *)

Inductive result (A : Type) : Type :=
| Ok (a : A)
| Panic (p : panic).
Arguments Ok {A} a.
Arguments Panic {A} p.

#[export] Instance result_ret : MRet result := fun A a => Ok a.
#[export] Instance result_bind : MBind result :=
  fun A B f r => match r with Ok a => f a | Panic p => Panic p end.

Definition is_Ok {A} (r : result A) : Prop := ∃ a, r = Ok a.
Definition is_Panic {A} (r : result A) : Prop := ∃ p, r = Panic p.

(** ** Machine integers and constants *)

(** Two's-complement wrap-around of a 64-bit [int]. *)
Definition wrap (z : Z) : Z := (z + 2 ^ 63) `mod` 2 ^ 64 - 2 ^ 63.

Definition MaxInt : Z := 2 ^ 63 - 1.
Definition MaxInt32 : Z := 2147483647.
(** [math.MaxFloat32] = (2 - 2^-23) * 2^127, exact in binary64. *)
Definition MaxFloat32 : float := 0x1.fffffep+127%float.
(** [math.MaxFloat64] = (2 - 2^-52) * 2^1023. *)
Definition MaxFloat64 : float := 0x1.fffffffffffffp+1023%float.

(** The placeholder written by [newTocScoreDocCollector]:
    [ScoreDoc{-math.MaxFloat32, math.MaxInt32}]. *)
Definition sentinel : ScoreDoc :=
  {| score := PrimFloat.opp MaxFloat32; doc := MaxInt32 |}.

(** ** Memory and interface values *)

(** [x.( *ScoreDoc)] *)
Definition assertPtr (x : any) : result addr :=
  match x with
  | AnyPtr p => Ok p
  | AnyScoreDoc _ => Panic TypeAssertion
  end.

(** [*p] and [p.f]: an address outside the store stands for a nil pointer. *)
Definition deref (m : gmap addr ScoreDoc) (p : addr) : result ScoreDoc :=
  match m !! p with
  | Some d => Ok d
  | None => Panic NilDereference
  end.

(** [s[i]] with Go's bounds check. *)
Definition index {A} (s : list A) (i : Z) : result A :=
  if i <? 0 then Panic IndexOutOfRange
  else match s !! Z.to_nat i with
       | Some x => Ok x
       | None => Panic IndexOutOfRange
       end.

(** ** [PriorityQueue] *)

(** The comparison made by the closure [pq.less] once both hits are at
    hand: score ascending and, on equal scores, document id descending. *)
Definition lessHit (a b : ScoreDoc) : bool :=
  if PrimFloat.eqb (score a) (score b) then doc b <? doc a
  else PrimFloat.ltb (score a) (score b).

Module PriorityQueue.

(** [func (pq PriorityQueue) Len() int { return len(pq.items) }] *)
Definition Len (items : list any) : Z := Z.of_nat (length items).

(** The closure installed as [pq.less] by [newTocScoreDocCollector]:
    both slots are asserted to [*ScoreDoc], then compared. *)
Definition Less (m : gmap addr ScoreDoc) (items : list any) (i j : Z)
  : result bool :=
  a ← index items i;
  pa ← assertPtr a;
  b ← index items j;
  pb ← assertPtr b;
  hitA ← deref m pa;
  hitB ← deref m pb;
  Ok (lessHit hitA hitB).

(** [pq.items[i], pq.items[j] = pq.items[j], pq.items[i]] *)
Definition Swap (items : list any) (i j : Z) : result (list any) :=
  xj ← index items j;
  xi ← index items i;
  Ok (<[Z.to_nat j := xi]> (<[Z.to_nat i := xj]> items)).

(** [pq.items = append(pq.items, x)] *)
Definition Push (items : list any) (x : any) : list any := items ++ [x].

(** [n := pq.Len(); ans := pq.items[n-1]; pq.items = pq.items[0 : n-1]] *)
Definition Pop (items : list any) : result (any * list any) :=
  let n := Len items in
  ans ← index items (n - 1);
  Ok (ans, take (Z.to_nat (n - 1)) items).

End PriorityQueue.

(** ** [container/heap] of the Go standard library, over [PriorityQueue]

    The package is not part of the repository; the functions below follow
    its current source ([down] prefers the left child on ties and both
    loops stop when the child is not less than its parent). *)

Module heap.

(** [func down(h Interface, i0, n int) bool]: the loop body is one unit of
    fuel.  The boolean it returns is unused by [Init] and [Pop]. *)
Fixpoint down (fuel : nat) (m : gmap addr ScoreDoc) (items : list any)
         (i n : Z) : result (list any) :=
  match fuel with
  | O => Panic FuelExhausted
  | S fuel' =>
      let j1 := 2 * i + 1 in
      if (n <=? j1) || (j1 <? 0) then Ok items
      else
        let j2 := j1 + 1 in
        j ← (if j2 <? n
             then (b ← PriorityQueue.Less m items j2 j1;
                   Ok (if b : bool then j2 else j1))
             else Ok j1);
        b ← PriorityQueue.Less m items j i;
        if negb b then Ok items
        else
          items' ← PriorityQueue.Swap items i j;
          down fuel' m items' j n
  end.

(** [func up(h Interface, j int)]; [(j - 1) / 2] truncates toward zero. *)
Fixpoint up (fuel : nat) (m : gmap addr ScoreDoc) (items : list any)
         (j : Z) : result (list any) :=
  match fuel with
  | O => Panic FuelExhausted
  | S fuel' =>
      let i := (j - 1) ÷ 2 in
      if i =? j then Ok items
      else
        b ← PriorityQueue.Less m items j i;
        if negb b then Ok items
        else
          items' ← PriorityQueue.Swap items i j;
          up fuel' m items' i
  end.

(** Fuel that covers every run of the two loops on a slice of length [n]. *)
Definition fuel_for (n : Z) : nat := S (Z.to_nat n).

(** [for i := n/2 - 1; i >= 0; i-- { down(h, i, n) }], [k] iterations left. *)
Fixpoint Init_loop (k : nat) (m : gmap addr ScoreDoc) (items : list any)
         (n : Z) : result (list any) :=
  match k with
  | O => Ok items
  | S k' =>
      items' ← down (fuel_for n) m items (Z.of_nat k') n;
      Init_loop k' m items' n
  end.

(** [func Init(h Interface)] *)
Definition Init (m : gmap addr ScoreDoc) (items : list any)
  : result (list any) :=
  let n := PriorityQueue.Len items in
  Init_loop (Z.to_nat (n / 2)) m items n.

(** [func Push(h Interface, x any) { h.Push(x); up(h, h.Len()-1) }] *)
Definition Push (m : gmap addr ScoreDoc) (items : list any) (x : any)
  : result (list any) :=
  let items' := PriorityQueue.Push items x in
  up (fuel_for (PriorityQueue.Len items')) m items'
     (PriorityQueue.Len items' - 1).

(** [func Pop(h Interface) any {
       n := h.Len() - 1; h.Swap(0, n); down(h, 0, n); return h.Pop() }] *)
Definition Pop (m : gmap addr ScoreDoc) (items : list any)
  : result (any * list any) :=
  let n := PriorityQueue.Len items - 1 in
  items1 ← PriorityQueue.Swap items 0 n;
  items2 ← down (fuel_for n) m items1 0 n;
  PriorityQueue.Pop items2.

(** [for i := k; i > 0; i-- { heap.Pop(pq) }] *)
Fixpoint discard (k : nat) (m : gmap addr ScoreDoc) (items : list any)
  : result (list any) :=
  match k with
  | O => Ok items
  | S k' =>
      '(_, items') ← Pop m items;
      discard k' m items'
  end.

End heap.

(** ** The collector *)

(** Which closure sits in [TopDocsCollector.newTopDocs]: the default of
    [newTopDocsCollector], or the one [newTocScoreDocCollector] installs. *)
Inductive newTopDocsHook : Type := DefaultHook | ScoreHook.

(** The state reachable from an [*InOrderTopScoreDocCollector]: the embedded
    [TopScoreDocCollector] and [TopDocsCollector], the queue they own and
    the [ScoreDoc] objects the queue's pointers and [pqTop] designate.  The
    [scorer] field is only read by [Collect]; its type [Scorer] is declared
    outside this file, so [Collect] takes the score it returns as an
    argument. *)
Record Collector : Type := mkCollector {
  objs : gmap addr ScoreDoc;
  pq : list any;
  TotalHits : Z;
  hook : newTopDocsHook;
  pqTop : addr;
  docBase : Z
}.

Definition with_pq (c : Collector) (items : list any) : Collector :=
  mkCollector (objs c) items (TotalHits c) (hook c) (pqTop c) (docBase c).

Module TopDocsCollector.

(** [ans.topDocsSize]: [if n := pq.Len(); ans.TotalHits >= n { return n };
    return ans.TotalHits] *)
Definition topDocsSize (c : Collector) : Z :=
  let n := PriorityQueue.Len (pq c) in
  if n <=? TotalHits c then n else TotalHits c.

(** [TopDocs{0, []ScoreDoc{}, math.NaN()}] *)
Definition emptyTopDocs : TopDocs := mkTopDocs 0 [] nan.

(** [c.newTopDocs(results, start)]; [None] is the nil slice.  The closure
    of [newTocScoreDocCollector] recovers the maximum score: from
    [results[0]] when [start == 0], otherwise by popping the queue down to
    its last entry. *)
Definition newTopDocs (c : Collector) (results : option (list ScoreDoc))
           (start : Z) : result (TopDocs * Collector) :=
  match results with
  | None => Ok (emptyTopDocs, c)
  | Some rs =>
      match hook c with
      | DefaultHook => Ok (mkTopDocs (TotalHits c) rs nan, c)
      | ScoreHook =>
          if start =? 0 then
            r0 ← index rs 0;
            Ok (mkTopDocs (TotalHits c) rs (score r0), c)
          else
            (* for i := pq.Len(); i > 1; i-- { heap.Pop(pq) } *)
            items ← heap.discard
                      (Z.to_nat (PriorityQueue.Len (pq c) - 1))
                      (objs c) (pq c);
            '(x, items') ← heap.Pop (objs c) items;
            p ← assertPtr x;
            top ← deref (objs c) p;
            Ok (mkTopDocs (TotalHits c) rs (score top), with_pq c items')
      end
  end.

(** [for i := howMany - 1; i >= 0; i-- { ans[i] = *(heap.Pop(c.pq).( *ScoreDoc)) }],
    with [k] iterations left, that is [i = k - 1]. *)
Fixpoint populateResults (k : nat) (m : gmap addr ScoreDoc)
         (items : list any) (ans : list ScoreDoc)
  : result (list any * list ScoreDoc) :=
  match k with
  | O => Ok (items, ans)
  | S i =>
      '(x, items') ← heap.Pop m items;
      p ← assertPtr x;
      d ← deref m p;
      _ ← index ans (Z.of_nat i);
      populateResults i m items' (<[i := d]> ans)
  end.

(** [func (c *TopDocsCollector) TopDocsRange(start, howMany int) TopDocs] *)
Definition TopDocsRange (c : Collector) (start howMany : Z)
  : result (TopDocs * Collector) :=
  let size := topDocsSize c in
  if (start <? 0) || (size <=? start) || (howMany <=? 0) then
    newTopDocs c None start
  else
    let howMany := if size - start <? howMany then size - start else howMany in
    let results := replicate (Z.to_nat howMany) (mkScoreDoc 0%float 0) in
    items ← heap.discard
              (Z.to_nat (PriorityQueue.Len (pq c) - start - howMany))
              (objs c) (pq c);
    '(items', results') ←
      populateResults (Z.to_nat howMany) (objs c) items results;
    newTopDocs (with_pq c items') (Some results') start.

(** [func (c *TopDocsCollector) TopDocs() TopDocs] *)
Definition TopDocs (c : Collector) : result (TopDocs * Collector) :=
  TopDocsRange c 0 (topDocsSize c).

End TopDocsCollector.

(** [make([]interface{}, numHits)] followed by the loop that stores the
    placeholder, by value, in every slot. *)
Definition makeDocs (numHits : Z) : result (list any) :=
  if numHits <? 0 then Panic MakeSliceLen
  else Ok (replicate (Z.to_nat numHits) (AnyScoreDoc sentinel)).

(** [newTocScoreDocCollector] from [pq := &PriorityQueue{items: docs}] on:
    [heap.Init], the two hooks, and the handle [pqTop] taken by popping the
    least entry and pushing it back. *)
Definition newTocScoreDocCollector_from (m : gmap addr ScoreDoc)
           (docs : list any) : result Collector :=
  items ← heap.Init m docs;
  '(x, items1) ← heap.Pop m items;
  top ← assertPtr x;
  items2 ← heap.Push m items1 (AnyPtr top);
  Ok (mkCollector m items2 0 ScoreHook top 0).

(** [func newTocScoreDocCollector(numHits int) *TopScoreDocCollector];
    no [ScoreDoc] object is allocated, the store is empty. *)
Definition newTocScoreDocCollector (numHits : Z) : result Collector :=
  docs ← makeDocs numHits;
  newTocScoreDocCollector_from ∅ docs.

(** [func NewInOrderTopScoreDocCollector(numHits int) *InOrderTopScoreDocCollector] *)
Definition NewInOrderTopScoreDocCollector (numHits : Z) : result Collector :=
  newTocScoreDocCollector numHits.

(** [func NewTopScoreDocCollector(numHits int, after ScoreDoc, docsScoredInOrder bool) Collector] *)
Definition NewTopScoreDocCollector (numHits : Z) (after : ScoreDoc)
           (docsScoredInOrder : bool) : result Collector :=
  if numHits <? 0 then
    Panic (Message "numHits must be > 0; please use TotalHitCountCollector if you just need the total hit count")
  else if docsScoredInOrder then NewInOrderTopScoreDocCollector numHits
  else Panic (Message "not supported yet").

(** [func (c *TopScoreDocCollector) SetNextReader(ctx index.AtomicReaderContext)]:
    [c.docBase = ctx.DocBase]. *)
Definition SetNextReader (c : Collector) (ctxDocBase : Z) : Collector :=
  mkCollector (objs c) (pq c) (TotalHits c) (hook c) (pqTop c) ctxDocBase.

(** [func (c *InOrderTopScoreDocCollector) Collect(doc int)], where [scr] is
    what [c.scorer.Score()] returns for the document. *)
Definition Collect (c : Collector) (scr : float) (d : Z) : result Collector :=
  let total := wrap (TotalHits c + 1) in
  top ← deref (objs c) (pqTop c);
  if PrimFloat.leb scr (score top) then
    Ok (mkCollector (objs c) (pq c) total (hook c) (pqTop c) (docBase c))
  else
    let m1 := <[pqTop c := mkScoreDoc (score top) (wrap (d + docBase c))]> (objs c) in
    let m2 := <[pqTop c := mkScoreDoc scr (wrap (d + docBase c))]> m1 in
    '(_, items1) ← heap.Pop m2 (pq c);
    items2 ← heap.Push m2 items1 (AnyPtr (pqTop c));
    Ok (mkCollector m2 items2 total (hook c) (pqTop c) (docBase c)).

(** [func (c *InOrderTopScoreDocCollector) AcceptsDocsOutOfOrder() bool] *)
Definition AcceptsDocsOutOfOrder (c : Collector) : bool := false.

(** ** Driving a collector *)

(** One [Collect] call per hit [(score, local id)], in order. *)
Fixpoint collectAll (c : Collector) (hits : list (float * Z)) : result Collector :=
  match hits with
  | [] => Ok c
  | (scr, d) :: hits' =>
      c' ← Collect c scr d;
      collectAll c' hits'
  end.

(** A whole search on one segment: construct an in-order collector of
    capacity [k], announce the segment, collect the hits. *)
Definition search (k base : Z) (hits : list (float * Z)) : result Collector :=
  c ← NewInOrderTopScoreDocCollector k;
  collectAll (SetNextReader c base) hits.

(** The scores the queue currently designates, slot by slot. *)
Definition entry (m : gmap addr ScoreDoc) (x : any) : option ScoreDoc :=
  match x with
  | AnyPtr p => m !! p
  | AnyScoreDoc _ => None
  end.

Definition entries (c : Collector) : list (option ScoreDoc) :=
  entry (objs c) <$> pq c.

(** Every slot of the queue is a pointer to a live [ScoreDoc]. *)
Definition live (m : gmap addr ScoreDoc) (items : list any) : Prop :=
  Forall (fun x => ∃ p d, x = AnyPtr p ∧ m !! p = Some d) items.

(** ** Vocabulary of the properties *)

(** The worst retained score: some entry of the queue has it and no entry
    has a lower one. *)
Definition worstScore (c : Collector) (w : float) : Prop :=
  (∃ e, Some e ∈ entries c ∧ score e = w) ∧
  (∀ e, Some e ∈ entries c → PrimFloat.leb w (score e) = true).

(** The hit [Collect] writes through the handle. *)
Definition hit (c : Collector) (scr : float) (d : Z) : ScoreDoc :=
  mkScoreDoc scr (wrap (d + docBase c)).

(** What a caller reads in an extraction besides the count: the ordered
    hits and the maximum score. *)
Definition orderedHits (r : result (TopDocs * Collector))
  : result (list ScoreDoc * float) :=
  '(td, _) ← r; Ok (scoreDocs td, maxScore td).

(** [c] with another value in its counter. *)
Definition with_TotalHits (c : Collector) (t : Z) : Collector :=
  mkCollector (objs c) (pq c) t (hook c) (pqTop c) (docBase c).

(** *** Heap order

    The order of the queue is stated on slots, through the values their
    pointers designate.  A slot that designates nothing compares as not
    less. *)

(** No object of the store has a NaN score. *)
Definition ordered (d : ScoreDoc) : Prop :=
  PrimFloat.eqb (score d) (score d) = true.

Definition orderedStore (m : gmap addr ScoreDoc) : Prop :=
  ∀ p d, m !! p = Some d → ordered d.

(** [a] is not ranked below [b]: the order of the hits in a result. *)
Definition notBelow (a b : ScoreDoc) : Prop := lessHit a b = false.

(** [pq.less] on two slots, and on two indices of the queue. *)
Definition lessAny (m : gmap addr ScoreDoc) (x y : any) : bool :=
  match entry m x, entry m y with
  | Some a, Some b => lessHit a b
  | _, _ => false
  end.

Definition value (m : gmap addr ScoreDoc) (items : list any) (k : nat)
  : option ScoreDoc := items !! k ≫= entry m.

Definition lessAt (m : gmap addr ScoreDoc) (items : list any) (a b : nat)
  : bool :=
  match value m items a, value m items b with
  | Some x, Some y => lessHit x y
  | _, _ => false
  end.

(** [pq.Swap(i, j)] on indices in range, and where index [k] comes from. *)
Definition swapped (items : list any) (i j : nat) : list any :=
  match items !! i, items !! j with
  | Some xi, Some xj => <[j := xi]> (<[i := xj]> items)
  | _, _ => items
  end.

Definition transpose (i j k : nat) : nat :=
  if decide (k = i) then j else if decide (k = j) then i else k.

(** [c] is one of the two children of [p] in the implicit binary tree. *)
Definition child (c p : nat) : Prop := (c = 2 * p + 1 ∨ c = 2 * p + 2)%nat.

(** The first [n] slots form a heap: no child is less than its parent. *)
Definition heapOK (m : gmap addr ScoreDoc) (items : list any) (n : nat) : Prop :=
  ∀ p c, child c p → (c < n)%nat → lessAt m items c p = false.

(** A heap but for the slot [i], which may be greater than its children,
    while these are not less than the parent of [i]: what [down] repairs. *)
Definition holeOK (m : gmap addr ScoreDoc) (items : list any) (i n : nat) : Prop :=
  (∀ p c, p ≠ i → child c p → (c < n)%nat → lessAt m items c p = false) ∧
  (∀ g c, child i g → child c i → (c < n)%nat → lessAt m items c g = false).

(** A heap but for the slot [j], which may be less than its parent, while
    its children are not less than that parent: what [up] repairs. *)
Definition upOK (m : gmap addr ScoreDoc) (items : list any) (j n : nat) : Prop :=
  (∀ p c, c ≠ j → child c p → (c < n)%nat → lessAt m items c p = false) ∧
  (∀ g c, child j g → child c j → (c < n)%nat → lessAt m items c g = false).

(** The child [down] compares with slot [i]: the right one when it exists
    and is less than the left one. *)
Definition smallerChild (m : gmap addr ScoreDoc) (items : list any)
           (i n : nat) : nat :=
  if decide (2 * i + 2 < n)%nat
  then (if lessAt m items (2 * i + 2) (2 * i + 1) then 2 * i + 2 else 2 * i + 1)%nat
  else (2 * i + 1)%nat.

(** ** Fixtures *)

(** A store of [n] placeholders at addresses [0 .. n-1] and the queue of
    pointers to them: what line 127 would build had it stored addresses. *)
Definition sentinelStore (n : nat) : gmap addr ScoreDoc :=
  list_to_map ((fun p => (p, sentinel)) <$> seq 0 n).
Definition pointerDocs (n : nat) : list any := AnyPtr <$> seq 0 n.

(** The hits of the specification's worked example. *)
Definition the_hits : list (float * Z) :=
  [(1%float, 100); (5%float, 101); (3%float, 102); (9%float, 103); (2%float, 104)].

(** A capacity-2 queue of pointers holding the hits (1.0, 0) and (2.0, 1),
    in heap order, the handle on its least entry. *)
Definition twoHits : Collector :=
  mkCollector {[ 0%nat := mkScoreDoc 1%float 0; 1%nat := mkScoreDoc 2%float 1 ]}
              [AnyPtr 0%nat; AnyPtr 1%nat] 2 ScoreHook 0%nat 0.

(** The state [twoHits] is in after [Collect] accepted (5.0, 2): the queue
    is a heap again, but the handle is no longer its root. *)
Definition staleHandle : Collector :=
  mkCollector {[ 0%nat := mkScoreDoc 5%float 2; 1%nat := mkScoreDoc 2%float 1 ]}
              [AnyPtr 1%nat; AnyPtr 0%nat] 3 ScoreHook 0%nat 0.

(** A capacity-1 queue of pointers after five hits, the best being (9.0, 103). *)
Definition fiveSeen : Collector :=
  mkCollector {[ 0%nat := mkScoreDoc 9%float 103 ]} [AnyPtr 0%nat] 5 ScoreHook 0%nat 0.

(** A capacity-3 queue of pointers that has seen nothing yet. *)
Definition nothingSeen : Collector :=
  mkCollector (sentinelStore 3) (pointerDocs 3) 0 ScoreHook 0%nat 0.

(** * Properties *)

(** ** Results and bounds checks *)

Lemma bind_Ok {A B} (a : A) (f : A → result B) : (Ok a ≫= f) = f a.
Proof. reflexivity. Qed.

Lemma bind_Panic {A B} (p : panic) (f : A → result B) :
  (Panic p ≫= f) = Panic p.
Proof. reflexivity. Qed.

Lemma index_Ok {A} (s : list A) (i : Z) (x : A) :
  index s i = Ok x ↔ 0 ≤ i ∧ s !! Z.to_nat i = Some x.
Proof.
  unfold index. destruct (Z.ltb_spec i 0).
  - split; [discriminate | lia].
  - destruct (s !! Z.to_nat i) eqn:E; split; intros H1;
      try discriminate; try (injection H1 as ->); try done.
    + destruct H1 as [_ H1]. by injection H1 as ->.
    + by destruct H1.
Qed.

Lemma index_in_range {A} (s : list A) (i : Z) :
  0 ≤ i < Z.of_nat (length s) →
  ∃ x, index s i = Ok x ∧ s !! Z.to_nat i = Some x.
Proof.
  intros Hi. destruct (lookup_lt_is_Some_2 s (Z.to_nat i)) as [x Hx]; [lia|].
  exists x. split; [|done]. apply index_Ok. split; [lia|done].
Qed.

Lemma index_out_of_range {A} (s : list A) (i : Z) :
  i < 0 ∨ Z.of_nat (length s) ≤ i → index s i = Panic IndexOutOfRange.
Proof.
  intros Hi. unfold index. destruct (Z.ltb_spec i 0); [done|].
  rewrite lookup_ge_None_2; [done | lia].
Qed.

(** ** Swapping two slots permutes the queue *)

Lemma insert_head_Permutation {A} (l : list A) (j : nat) (x a : A) :
  l !! j = Some x → x :: <[j := a]> l ≡ₚ a :: l.
Proof.
  revert j. induction l as [|b l IH]; intros [|j] Hj; simplify_eq/=.
  - apply Permutation_swap.
  - etrans; [apply Permutation_swap|].
    etrans; [apply Permutation_skip, (IH j Hj)|]. apply Permutation_swap.
Qed.

Lemma insert_swap_Permutation {A} (l : list A) (i j : nat) (xi xj : A) :
  l !! i = Some xi → l !! j = Some xj →
  <[j := xi]> (<[i := xj]> l) ≡ₚ l.
Proof.
  revert i j. induction l as [|a l IH]; intros [|i] [|j] Hi Hj; simplify_eq/=.
  - done.
  - by apply insert_head_Permutation.
  - by apply insert_head_Permutation.
  - f_equiv. by apply IH.
Qed.

Lemma Len_Permutation items items' :
  items' ≡ₚ items → PriorityQueue.Len items' = PriorityQueue.Len items.
Proof. intros Hp. unfold PriorityQueue.Len. by rewrite Hp. Qed.

(** ** A queue of live pointers over a fixed store *)

Section QueueOfPointers.

(** The store of [ScoreDoc] objects the queue's pointers designate. *)
Context (m : gmap addr ScoreDoc).

Lemma live_lookup items k x :
  live m items → items !! k = Some x → ∃ p d, x = AnyPtr p ∧ m !! p = Some d.
Proof. intros Hl Hk. exact (proj1 (Forall_lookup _ _) Hl k x Hk). Qed.

Lemma live_insert items k x :
  live m items → (∃ p d, x = AnyPtr p ∧ m !! p = Some d) →
  live m (<[k := x]> items).
Proof. intros Hl Hx. by apply Forall_insert. Qed.

Lemma Swap_live items i j :
  live m items →
  0 ≤ i < PriorityQueue.Len items → 0 ≤ j < PriorityQueue.Len items →
  ∃ xi xj,
    items !! Z.to_nat i = Some xi ∧ items !! Z.to_nat j = Some xj ∧
    PriorityQueue.Swap items i j
      = Ok (<[Z.to_nat j := xi]> (<[Z.to_nat i := xj]> items)) ∧
    live m (<[Z.to_nat j := xi]> (<[Z.to_nat i := xj]> items)).
Proof.
  unfold PriorityQueue.Len. intros Hl Hi Hj.
  destruct (index_in_range items i Hi) as (xi & Ei & Li).
  destruct (index_in_range items j Hj) as (xj & Ej & Lj).
  exists xi, xj. repeat split; try done.
  - unfold PriorityQueue.Swap. by rewrite Ej, Ei.
  - apply live_insert; [apply live_insert; [done|] |]; eauto using live_lookup.
Qed.

Lemma Less_live items i j :
  live m items →
  0 ≤ i < PriorityQueue.Len items → 0 ≤ j < PriorityQueue.Len items →
  ∃ b, PriorityQueue.Less m items i j = Ok b.
Proof.
  unfold PriorityQueue.Len. intros Hl Hi Hj.
  destruct (index_in_range items i Hi) as (xi & Ei & Li).
  destruct (index_in_range items j Hj) as (xj & Ej & Lj).
  destruct (live_lookup _ _ _ Hl Li) as (pi & di & -> & Di).
  destruct (live_lookup _ _ _ Hl Lj) as (pj & dj & -> & Dj).
  unfold PriorityQueue.Less, deref. rewrite Ei, Ej. simpl.
  rewrite Di, Dj. simpl. eauto.
Qed.

Lemma live_Permutation items items' :
  items' ≡ₚ items → live m items → live m items'.
Proof. intros Hp Hl. unfold live. by rewrite Hp. Qed.

(** ** The loops of [container/heap] terminate within their fuel *)

(** [down] on live pointers returns, permutes the slots below [n] among
    themselves and leaves the others where they are. *)
Lemma heap_down_fuel fuel items i n :
  live m items →
  0 ≤ i ≤ n → n ≤ PriorityQueue.Len items → n - i < Z.of_nat fuel →
  ∃ items',
    heap.down fuel m items i n = Ok items' ∧
    items' ≡ₚ items ∧
    (∀ k : nat, (Z.to_nat n ≤ k)%nat → items' !! k = items !! k).
Proof.
  revert items i. induction fuel as [|fuel IH]; intros items i Hl Hi Hn Hf;
    [lia|].
  cbn [heap.down].
  destruct (Z.leb_spec n (2 * i + 1)); cbn [orb].
  { exists items. done. }
  destruct (Z.ltb_spec (2 * i + 1) 0); [lia|]. cbn [orb].
  assert (∃ j, (if 2 * i + 1 + 1 <? n
                then b ← PriorityQueue.Less m items (2 * i + 1 + 1) (2 * i + 1);
                     Ok (if b : bool then 2 * i + 1 + 1 else 2 * i + 1)
                else Ok (2 * i + 1)) = Ok j ∧ i < j < n) as (j & -> & Hj).
  { destruct (Z.ltb_spec (2 * i + 1 + 1) n).
    - destruct (Less_live items (2 * i + 1 + 1) (2 * i + 1) Hl)
        as [b ->]; [lia..|]. cbn. destruct b; eexists; split; eauto; lia.
    - eexists; split; eauto; lia. }
  cbn. destruct (Less_live items j i Hl) as [b ->]; [lia..|]. cbn.
  destruct b; cbn; [|exists items; done].
  destruct (Swap_live items i j Hl) as (xi & xj & Li & Lj & -> & Hl');
    [lia..|]. cbn.
  destruct (IH (<[Z.to_nat j := xi]> (<[Z.to_nat i := xj]> items)) j)
    as (items' & -> & Hp & Hk); try done; try lia.
  { unfold PriorityQueue.Len in *. rewrite !length_insert. lia. }
  exists items'. split; [done|]. split.
  - rewrite Hp. by apply insert_swap_Permutation.
  - intros k Hk'. rewrite (Hk k Hk').
    rewrite !list_lookup_insert_ne; [done | lia..].
Qed.

(** [up] on live pointers returns and permutes the slots. *)
Lemma heap_up_fuel fuel items j :
  live m items →
  0 ≤ j < PriorityQueue.Len items → j < Z.of_nat fuel →
  ∃ items', heap.up fuel m items j = Ok items' ∧ items' ≡ₚ items.
Proof.
  revert items j. induction fuel as [|fuel IH]; intros items j Hl Hj Hf; [lia|].
  cbn [heap.up].
  destruct (Z.eqb_spec ((j - 1) ÷ 2) j); [by exists items|].
  assert (0 ≤ (j - 1) ÷ 2 < j) as Hi.
  { destruct (decide (j = 0)) as [->|]; [done|].
    rewrite Z.quot_div_nonneg by lia.
    split; [apply Z.div_pos; lia | apply Z.div_lt_upper_bound; lia]. }
  destruct (Less_live items j ((j - 1) ÷ 2) Hl) as [b ->]; [lia..|]. cbn.
  destruct b; cbn; [|by exists items].
  destruct (Swap_live items ((j - 1) ÷ 2) j Hl) as (xi & xj & Li & Lj & -> & Hl');
    [lia..|]. cbn.
  destruct (IH (<[Z.to_nat j := xi]> (<[Z.to_nat ((j - 1) ÷ 2) := xj]> items))
              ((j - 1) ÷ 2)) as (items' & -> & Hp); try done; try lia.
  { unfold PriorityQueue.Len in *. rewrite !length_insert. lia. }
  exists items'. split; [done|]. rewrite Hp. by apply insert_swap_Permutation.
Qed.

(** ** [heap.Pop], [heap.Push] and the extraction loops on live pointers *)

(** [heap.Pop] returns the slot that was at index 0 and keeps the others. *)
Lemma heap_Pop_live items :
  live m items → 0 < PriorityQueue.Len items →
  ∃ x items',
    heap.Pop m items = Ok (x, items') ∧
    items !! 0%nat = Some x ∧
    x :: items' ≡ₚ items.
Proof.
  intros Hl Hn. unfold heap.Pop.
  set (n := PriorityQueue.Len items - 1).
  destruct (Swap_live items 0 n Hl) as (x0 & xn & L0 & Ln & -> & Hl1);
    [subst n; lia..|]. rewrite bind_Ok.
  set (items1 := <[Z.to_nat n := x0]> (<[Z.to_nat 0 := xn]> items)) in *.
  assert (items1 ≡ₚ items) as Hp1 by by apply insert_swap_Permutation.
  assert (items1 !! Z.to_nat n = Some x0) as Hlast1.
  { subst items1. apply list_lookup_insert_eq. rewrite length_insert.
    by eapply lookup_lt_Some. }
  destruct (heap_down_fuel (heap.fuel_for n) items1 0 n Hl1)
    as (items2 & -> & Hp2 & Hk); [subst n; lia | | unfold heap.fuel_for; lia |].
  { rewrite (Len_Permutation _ _ Hp1). subst n. lia. }
  rewrite bind_Ok. unfold PriorityQueue.Pop.
  assert (PriorityQueue.Len items2 = PriorityQueue.Len items) as HL
    by (rewrite (Len_Permutation _ _ Hp2); by apply Len_Permutation).
  rewrite HL. fold n.
  assert (items2 !! Z.to_nat n = Some x0) as Hlast2
    by (rewrite Hk; [done | lia]).
  assert (index items2 n = Ok x0) as ->
    by (apply index_Ok; split; [subst n; lia | done]).
  rewrite bind_Ok. exists x0, (take (Z.to_nat n) items2).
  split; [done|]. split; [done|].
  rewrite <- Hp1, <- Hp2.
  rewrite <- (take_ge items2 (S (Z.to_nat n))) at 2.
  - rewrite (take_S_r _ _ _ Hlast2). by rewrite Permutation_app_comm.
  - subst n. unfold PriorityQueue.Len in *. lia.
Qed.

Lemma heap_Push_live items x :
  live m (x :: items) →
  ∃ items', heap.Push m items x = Ok items' ∧ items' ≡ₚ x :: items.
Proof.
  intros Hl. unfold heap.Push, PriorityQueue.Push.
  assert (items ++ [x] ≡ₚ x :: items) as Hp by by rewrite Permutation_app_comm.
  destruct (heap_up_fuel (heap.fuel_for (PriorityQueue.Len (items ++ [x])))
              (items ++ [x]) (PriorityQueue.Len (items ++ [x]) - 1))
    as (items' & -> & Hp').
  - by eapply live_Permutation.
  - unfold PriorityQueue.Len. rewrite length_app. cbn. lia.
  - unfold heap.fuel_for. lia.
  - exists items'. split; [done|]. by rewrite Hp'.
Qed.

Lemma live_cons_inv x items :
  live m (x :: items) → (∃ p d, x = AnyPtr p ∧ m !! p = Some d) ∧ live m items.
Proof. intros Hl. by apply Forall_cons in Hl. Qed.

Lemma heap_discard_live k items :
  live m items → (k ≤ length items)%nat →
  ∃ items',
    heap.discard k m items = Ok items' ∧ live m items' ∧
    length items' = (length items - k)%nat.
Proof.
  revert items. induction k as [|k IH]; intros items Hl Hk; cbn.
  - exists items. repeat split; [done | lia].
  - destruct (heap_Pop_live items Hl) as (x & items1 & -> & _ & Hp);
      [unfold PriorityQueue.Len; lia|]. cbn.
    assert (length items = S (length items1)) as HL by by rewrite <- Hp.
    destruct (live_cons_inv x items1) as [_ Hl1];
      [by eapply live_Permutation|].
    destruct (IH items1 Hl1) as (items' & -> & Hl' & HL'); [lia|].
    exists items'. repeat split; [done | lia].
Qed.

Lemma populateResults_live k items ans :
  live m items → (k ≤ length items)%nat → (k ≤ length ans)%nat →
  ∃ items' ans',
    TopDocsCollector.populateResults k m items ans = Ok (items', ans') ∧
    live m items' ∧
    length items' = (length items - k)%nat ∧
    length ans' = length ans.
Proof.
  revert items ans. induction k as [|k IH]; intros items ans Hl Hk Ha; cbn.
  - exists items, ans. repeat split; [done | lia].
  - destruct (heap_Pop_live items Hl) as (x & items1 & -> & _ & Hp);
      [unfold PriorityQueue.Len; lia|]. cbn.
    assert (length items = S (length items1)) as HL by by rewrite <- Hp.
    destruct (live_cons_inv x items1) as [(p & d & -> & Hd) Hl1];
      [by eapply live_Permutation|].
    cbn. unfold deref. rewrite Hd. cbn.
    destruct (index_in_range ans (Z.of_nat k)) as (a & -> & _); [lia|]. cbn.
    destruct (IH items1 (<[k := d]> ans) Hl1) as (items' & ans' & -> & Hl' & HL' & HA);
      [lia | rewrite length_insert; lia |].
    exists items', ans'. rewrite length_insert in HA.
    repeat split; [done | lia | done].
Qed.

(** [heap.Init] on live pointers returns a permutation of the slots. *)
Lemma heap_Init_live items :
  live m items → ∃ items', heap.Init m items = Ok items' ∧ items' ≡ₚ items.
Proof.
  intros Hl. unfold heap.Init.
  set (n := PriorityQueue.Len items).
  assert (Z.of_nat (Z.to_nat (n / 2)) ≤ n) as Hk.
  { subst n. unfold PriorityQueue.Len.
    rewrite Z2Nat.id by (apply Z.div_pos; lia).
    apply Z.div_le_upper_bound; lia. }
  assert (PriorityQueue.Len items = n) as Hn by done.
  clearbody n. revert items Hl Hn.
  induction (Z.to_nat (n / 2)) as [|k IH]; intros items Hl Hn; cbn [heap.Init_loop].
  - by exists items.
  - destruct (heap_down_fuel (heap.fuel_for n) items (Z.of_nat k) n Hl)
      as (items1 & -> & Hp1 & _); [lia | lia | unfold heap.fuel_for; lia |].
    rewrite bind_Ok.
    destruct (IH ltac:(lia) items1) as (items' & -> & Hp');
      [by eapply live_Permutation | by rewrite (Len_Permutation _ _ Hp1) |].
    exists items'. split; [done|]. by rewrite Hp'.
Qed.

End QueueOfPointers.

Lemma live_store_insert m items p d :
  live m items → live (<[p := d]> m) items.
Proof.
  intros Hl. eapply Forall_impl; [exact Hl|].
  intros x (q & e & -> & Hq). destruct (decide (p = q)) as [->|Hne].
  - exists q, d. by rewrite lookup_insert_eq.
  - exists q, e. by rewrite lookup_insert_ne.
Qed.

Lemma topDocsSize_le c :
  TopDocsCollector.topDocsSize c ≤ PriorityQueue.Len (pq c) ∧
  TopDocsCollector.topDocsSize c ≤ TotalHits c.
Proof.
  unfold TopDocsCollector.topDocsSize.
  destruct (Z.leb_spec (PriorityQueue.Len (pq c)) (TotalHits c)); lia.
Qed.

(** The result-building hook returns on a live queue: it needs a first
    result when [start = 0] and one queue entry left otherwise. *)
Lemma newTopDocs_live c rs start :
  live (objs c) (pq c) →
  (start = 0 → rs ≠ []) →
  (start ≠ 0 → 0 < PriorityQueue.Len (pq c)) →
  ∃ td c',
    TopDocsCollector.newTopDocs c (Some rs) start = Ok (td, c') ∧
    scoreDocs td = rs ∧ totalHits td = TotalHits c ∧ TotalHits c' = TotalHits c.
Proof.
  intros Hl H0 H1. unfold TopDocsCollector.newTopDocs.
  destruct (hook c); [by eexists _, _|].
  destruct (Z.eqb_spec start 0) as [->|Hne].
  - destruct rs as [|r rs]; [by destruct H0|]. cbn. by eexists _, _.
  - specialize (H1 Hne).
    destruct (heap_discard_live (objs c)
                (Z.to_nat (PriorityQueue.Len (pq c) - 1)) (pq c) Hl) as (items & -> & Hl1 & HL1);
      [unfold PriorityQueue.Len; lia|]. rewrite bind_Ok.
    destruct (heap_Pop_live (objs c) items Hl1) as (x & items' & -> & _ & Hp);
      [unfold PriorityQueue.Len in *; lia|]. rewrite bind_Ok.
    destruct (live_cons_inv (objs c) x items') as [(p & d & -> & Hd) _];
      [by eapply live_Permutation|].
    cbn. unfold deref. rewrite Hd. cbn. by eexists _, _.
Qed.

(** Extraction over a valid range returns, with the requested window
    clamped to what [topDocsSize] leaves after [start]. *)
Lemma TopDocsRange_valid c start howMany :
  live (objs c) (pq c) →
  0 ≤ start < TopDocsCollector.topDocsSize c → 0 < howMany →
  ∃ td c',
    TopDocsCollector.TopDocsRange c start howMany = Ok (td, c') ∧
    Z.of_nat (length (scoreDocs td))
      = Z.min howMany (TopDocsCollector.topDocsSize c - start) ∧
    totalHits td = TotalHits c ∧ TotalHits c' = TotalHits c.
Proof.
  intros Hl Hs Hh. unfold TopDocsCollector.TopDocsRange.
  pose proof (topDocsSize_le c) as [Hsz _].
  set (size := TopDocsCollector.topDocsSize c) in *.
  destruct (Z.ltb_spec start 0); [lia|].
  destruct (Z.leb_spec size start); [lia|].
  destruct (Z.leb_spec howMany 0); [lia|]. cbn [orb].
  set (hm := if size - start <? howMany then size - start else howMany).
  assert (hm = Z.min howMany (size - start)) as Hhm
    by (subst hm; destruct (Z.ltb_spec (size - start) howMany); lia).
  destruct (heap_discard_live (objs c)
              (Z.to_nat (PriorityQueue.Len (pq c) - start - hm))
              (pq c) Hl) as (items & -> & Hl1 & HL1);
    [unfold PriorityQueue.Len in *; lia|]. rewrite bind_Ok.
  destruct (populateResults_live (objs c) (Z.to_nat hm) items
              (replicate (Z.to_nat hm) (mkScoreDoc 0%float 0)) Hl1)
    as (items' & rs & -> & Hl2 & HL2 & HR);
    [unfold PriorityQueue.Len in *; lia | rewrite length_replicate; lia |].
  rewrite bind_Ok. rewrite length_replicate in HR.
  destruct (newTopDocs_live (with_pq c items') rs start)
    as (td & c' & -> & Hrs & Ht & Ht'); [done | | |].
  - intros _ ->. cbn in HR. lia.
  - intros Hne. cbn. unfold PriorityQueue.Len in *. lia.
  - exists td, c'. rewrite Hrs. cbn in Ht, Ht'. repeat split; [lia | done..].
Qed.

(** ** Order of scores *)

(** [<=] on binary64 is transitive (NaN is below and above nothing). *)
Lemma SFleb_trans (a b c : spec_float) :
  SFleb a b = true → SFleb b c = true → SFleb a c = true.
Proof.
  unfold SFleb, SFcompare.
  destruct a as [[]|[]| |[] ma ea], b as [[]|[]| |[] mb eb],
           c as [[]|[]| |[] mc ec];
    try (intros; reflexivity); try (intros; discriminate);
    change (Pos.compare_cont Eq) with Pos.compare;
    destruct (Z.compare_spec ea eb), (Z.compare_spec eb ec),
             (Z.compare_spec ea ec);
    try (intros; reflexivity); try (intros; discriminate); try lia;
    subst;
    destruct (Pos.compare_spec ma mb), (Pos.compare_spec mb mc),
             (Pos.compare_spec ma mc);
    cbn; try (intros; reflexivity); try (intros; discriminate); try lia.
Qed.

Lemma score_leb_trans (x y z : float) :
  PrimFloat.leb x y = true → PrimFloat.leb y z = true →
  PrimFloat.leb x z = true.
Proof. rewrite !leb_spec. apply SFleb_trans. Qed.

(** A score strictly above another is not at most it. *)
Lemma SFltb_not_SFleb (a b : spec_float) :
  SFltb a b = true → SFleb b a = false.
Proof.
  unfold SFltb, SFleb, SFcompare.
  destruct a as [[]|[]| |[] ma ea], b as [[]|[]| |[] mb eb];
    try (intros; reflexivity); try (intros; discriminate);
    change (Pos.compare_cont Eq) with Pos.compare;
    rewrite (Z.compare_antisym ea eb);
    destruct (Z.compare_spec ea eb);
    cbn; try (intros; reflexivity); try (intros; discriminate);
    rewrite (Pos.compare_antisym ma mb);
    destruct (Pos.compare_spec ma mb);
    cbn; try (intros; reflexivity); try (intros; discriminate).
Qed.

Lemma score_ltb_not_leb (x y : float) :
  PrimFloat.ltb x y = true → PrimFloat.leb y x = false.
Proof. rewrite ltb_spec, leb_spec. apply SFltb_not_SFleb. Qed.

(** On scores that are not NaN, [<=] is total, [<] is its strict part and
    [==] its symmetric part. *)
Lemma SFleb_total (a b : spec_float) :
  SFeqb a a = true → SFeqb b b = true → SFleb a b = true ∨ SFleb b a = true.
Proof.
  unfold SFleb, SFeqb, SFcompare.
  destruct a as [[]|[]| |[] ma ea], b as [[]|[]| |[] mb eb];
    try (intros; discriminate); try (intros; left; reflexivity);
    try (intros; right; reflexivity);
    change (Pos.compare_cont Eq) with Pos.compare;
    intros _ _;
    rewrite (Z.compare_antisym ea eb);
    destruct (Z.compare_spec ea eb); cbn; auto;
    rewrite (Pos.compare_antisym ma mb);
    destruct (Pos.compare_spec ma mb); cbn; auto.
Qed.

Lemma SFltb_SFleb (a b : spec_float) :
  SFeqb a a = true → SFeqb b b = true → SFltb a b = negb (SFleb b a).
Proof.
  unfold SFleb, SFltb, SFeqb, SFcompare.
  destruct a as [[]|[]| |[] ma ea], b as [[]|[]| |[] mb eb];
    try (intros; discriminate); try (intros; reflexivity);
    change (Pos.compare_cont Eq) with Pos.compare;
    intros _ _;
    rewrite (Z.compare_antisym ea eb);
    destruct (Z.compare_spec ea eb); cbn; auto;
    rewrite (Pos.compare_antisym ma mb);
    destruct (Pos.compare_spec ma mb); cbn; auto.
Qed.

Lemma SFeqb_SFleb (a b : spec_float) :
  SFeqb a b = SFleb a b && SFleb b a.
Proof.
  unfold SFleb, SFeqb, SFcompare.
  destruct a as [[]|[]| |[] ma ea], b as [[]|[]| |[] mb eb];
    try reflexivity;
    change (Pos.compare_cont Eq) with Pos.compare;
    rewrite (Z.compare_antisym ea eb);
    destruct (Z.compare_spec ea eb); cbn; auto;
    rewrite (Pos.compare_antisym ma mb);
    destruct (Pos.compare_spec ma mb); cbn; auto.
Qed.

Lemma SFltb_irrefl (a : spec_float) : SFltb a a = false.
Proof.
  unfold SFltb, SFcompare.
  destruct a as [[]|[]| |[] ma ea]; try reflexivity;
    change (Pos.compare_cont Eq) with Pos.compare;
    rewrite Z.compare_refl, Pos.compare_refl; reflexivity.
Qed.

Lemma score_leb_total (x y : float) :
  PrimFloat.eqb x x = true → PrimFloat.eqb y y = true →
  PrimFloat.leb x y = true ∨ PrimFloat.leb y x = true.
Proof. rewrite !FloatAxioms.eqb_spec, !FloatAxioms.leb_spec. apply SFleb_total. Qed.

Lemma score_ltb_leb (x y : float) :
  PrimFloat.eqb x x = true → PrimFloat.eqb y y = true →
  PrimFloat.ltb x y = negb (PrimFloat.leb y x).
Proof. rewrite !FloatAxioms.eqb_spec, FloatAxioms.ltb_spec, FloatAxioms.leb_spec. apply SFltb_SFleb. Qed.

Lemma score_eqb_leb (x y : float) :
  PrimFloat.eqb x y = PrimFloat.leb x y && PrimFloat.leb y x.
Proof. rewrite FloatAxioms.eqb_spec, !FloatAxioms.leb_spec. apply SFeqb_SFleb. Qed.

(** The comparison of hits in terms of [<=] on their scores. *)
Lemma lessHit_ordered a b :
  ordered a → ordered b →
  lessHit a b
  = if PrimFloat.leb (score a) (score b) && PrimFloat.leb (score b) (score a)
    then doc b <? doc a
    else negb (PrimFloat.leb (score b) (score a)).
Proof.
  intros Ha Hb. unfold lessHit.
  by rewrite score_eqb_leb, (score_ltb_leb _ _ Ha Hb).
Qed.

Lemma lessHit_irrefl a : lessHit a a = false.
Proof.
  unfold lessHit. destruct (PrimFloat.eqb (score a) (score a)).
  - apply Z.ltb_irrefl.
  - rewrite ltb_spec. apply SFltb_irrefl.
Qed.

Lemma lessHit_asym a b :
  ordered a → ordered b → lessHit a b = true → lessHit b a = false.
Proof.
  intros Ha Hb. rewrite (lessHit_ordered a b Ha Hb), (lessHit_ordered b a Hb Ha).
  destruct (score_leb_total _ _ Ha Hb);
    destruct (PrimFloat.leb (score a) (score b)),
             (PrimFloat.leb (score b) (score a)); cbn; try done; lia.
Qed.

(** Not being ranked below is transitive. *)
Lemma notLess_trans a b c :
  ordered a → ordered b → ordered c →
  lessHit a b = false → lessHit b c = false → lessHit a c = false.
Proof.
  intros Ha Hb Hc.
  rewrite (lessHit_ordered a b Ha Hb), (lessHit_ordered b c Hb Hc),
          (lessHit_ordered a c Ha Hc).
  pose proof (score_leb_trans (score a) (score b) (score c)) as T1.
  pose proof (score_leb_trans (score c) (score b) (score a)) as T2.
  pose proof (score_leb_trans (score b) (score a) (score c)) as T3.
  pose proof (score_leb_trans (score b) (score c) (score a)) as T4.
  pose proof (score_leb_trans (score a) (score c) (score b)) as T5.
  pose proof (score_leb_trans (score c) (score a) (score b)) as T6.
  destruct (score_leb_total _ _ Ha Hc);
  destruct (PrimFloat.leb (score a) (score b)),
           (PrimFloat.leb (score b) (score a)),
           (PrimFloat.leb (score b) (score c)),
           (PrimFloat.leb (score c) (score b)),
           (PrimFloat.leb (score a) (score c)),
           (PrimFloat.leb (score c) (score a)); cbn;
    try done; try lia;
    try (by specialize (T1 eq_refl eq_refl));
    try (by specialize (T2 eq_refl eq_refl));
    try (by specialize (T3 eq_refl eq_refl));
    try (by specialize (T4 eq_refl eq_refl));
    try (by specialize (T5 eq_refl eq_refl));
    try (by specialize (T6 eq_refl eq_refl)).
Qed.

Lemma notLess_leb a b :
  ordered a → ordered b → lessHit a b = false →
  PrimFloat.leb (score b) (score a) = true.
Proof.
  intros Ha Hb. rewrite (lessHit_ordered a b Ha Hb).
  destruct (PrimFloat.leb (score a) (score b)),
           (PrimFloat.leb (score b) (score a)); cbn; done.
Qed.

(** ** One [Collect] call *)

Lemma handle_entry c :
  live (objs c) (pq c) → AnyPtr (pqTop c) ∈ pq c →
  ∃ top, objs c !! pqTop c = Some top ∧ Some top ∈ entries c.
Proof.
  intros Hl Hin.
  destruct (proj1 (Forall_forall _ _) Hl _ Hin) as (p & top & [= <-] & Hp).
  exists top. split; [done|]. unfold entries. rewrite <- Hp.
  change (objs c !! pqTop c) with (entry (objs c) (AnyPtr (pqTop c))).
  by apply list_elem_of_fmap_2.
Qed.

Lemma Collect_reject c scr d top :
  objs c !! pqTop c = Some top → PrimFloat.leb scr (score top) = true →
  Collect c scr d
    = Ok (mkCollector (objs c) (pq c) (wrap (TotalHits c + 1)) (hook c)
            (pqTop c) (docBase c)).
Proof. intros Ht Hle. unfold Collect, deref. rewrite Ht. cbn. by rewrite Hle. Qed.

(** An accepted hit overwrites the object behind the handle, removes the
    slot found at the root of the queue and pushes the handle. *)
Lemma Collect_accept c scr d top :
  live (objs c) (pq c) → 0 < PriorityQueue.Len (pq c) →
  objs c !! pqTop c = Some top → PrimFloat.leb scr (score top) = false →
  ∃ x items1 items2,
    Collect c scr d
      = Ok (mkCollector (<[pqTop c := hit c scr d]> (objs c)) items2
              (wrap (TotalHits c + 1)) (hook c) (pqTop c) (docBase c)) ∧
    pq c !! 0%nat = Some x ∧
    x :: items1 ≡ₚ pq c ∧
    items2 ≡ₚ AnyPtr (pqTop c) :: items1.
Proof.
  intros Hl Hn Ht Hle. unfold Collect, deref. rewrite Ht, bind_Ok, Hle.
  rewrite insert_insert_eq. fold (hit c scr d).
  set (m2 := <[pqTop c := hit c scr d]> (objs c)).
  assert (live m2 (pq c)) as Hl2 by by apply live_store_insert.
  destruct (heap_Pop_live m2 (pq c) Hl2 Hn) as (x & items1 & -> & Hx & Hp).
  rewrite bind_Ok.
  destruct (heap_Push_live m2 items1 (AnyPtr (pqTop c))) as (items2 & -> & Hp2).
  - apply Forall_cons. split.
    + exists (pqTop c), (hit c scr d). split; [done|]. apply lookup_insert_eq.
    + destruct (live_cons_inv m2 x items1) as [_ H1]; [|done].
      by eapply live_Permutation.
  - rewrite bind_Ok. by exists x, items1, items2.
Qed.

(** When the handle designates the root of a queue of distinct pointers, an
    accepted hit takes the place of the root entry and nothing else moves
    out: the replace-min step the handle is kept for. *)
Lemma Collect_accept_at_root c scr d top :
  live (objs c) (pq c) → NoDup (pq c) →
  pq c !! 0%nat = Some (AnyPtr (pqTop c)) →
  objs c !! pqTop c = Some top → PrimFloat.leb scr (score top) = false →
  ∃ c' rest,
    Collect c scr d = Ok c' ∧
    pq c' ≡ₚ pq c ∧
    entries c ≡ₚ Some top :: rest ∧
    entries c' ≡ₚ Some (hit c scr d) :: rest.
Proof.
  intros Hl Hnd Hroot Ht Hle.
  destruct (Collect_accept c scr d top Hl) as (x & items1 & items2 & -> & Hx & Hp & Hp2);
    [|done..|].
  { unfold PriorityQueue.Len. apply lookup_lt_Some in Hroot. lia. }
  rewrite Hroot in Hx. injection Hx as <-.
  eexists _, (entry (objs c) <$> items1). split; [done|]. cbn.
  split; [by rewrite Hp2|]. split.
  - unfold entries. rewrite <- Hp. cbn. by rewrite Ht.
  - unfold entries. cbn. rewrite Hp2. cbn. rewrite lookup_insert_eq.
    assert (entry (<[pqTop c := hit c scr d]> (objs c)) <$> items1
            = entry (objs c) <$> items1) as ->; [|done].
    apply Forall_fmap_ext, Forall_forall.
    intros y Hy. destruct y as [v|q]; [done|]. cbn.
    apply lookup_insert_ne. intros <-.
    rewrite <- Hp in Hnd. apply NoDup_cons in Hnd as [Hnin _]. done.
Qed.

(** ** Construction *)

(** Comparing a slot that holds a [ScoreDoc] by value panics in the type
    assertion. *)
Lemma Less_by_value m items i j v :
  0 ≤ i → items !! Z.to_nat i = Some (AnyScoreDoc v) →
  PriorityQueue.Less m items i j = Panic TypeAssertion.
Proof.
  intros Hi Hv. unfold PriorityQueue.Less.
  by rewrite (proj2 (index_Ok items i _) (conj Hi Hv)).
Qed.

(** [heap.Init] on two or more slots filled by value reaches a comparison. *)
Lemma heap_Init_by_value m v (k : nat) :
  (2 ≤ k)%nat →
  heap.Init m (replicate k (AnyScoreDoc v)) = Panic TypeAssertion.
Proof.
  intros Hk. unfold heap.Init, PriorityQueue.Len. rewrite length_replicate.
  assert (2 * (Z.of_nat k / 2) ≤ Z.of_nat k) as Hdiv
    by (apply Z.mul_div_le; lia).
  assert (1 ≤ Z.of_nat k / 2) as Hhalf
    by (apply Z.div_le_lower_bound; lia).
  destruct (Z.to_nat (Z.of_nat k / 2)) as [|k'] eqn:Ek; [lia|].
  cbn [heap.Init_loop]. unfold heap.fuel_for. cbn [heap.down].
  destruct (Z.leb_spec (Z.of_nat k) (2 * Z.of_nat k' + 1)); [lia|].
  destruct (Z.ltb_spec (2 * Z.of_nat k' + 1) 0); [lia|]. cbn [orb].
  destruct (Z.ltb_spec (2 * Z.of_nat k' + 1 + 1) (Z.of_nat k)).
  - rewrite (Less_by_value m _ (2 * Z.of_nat k' + 1 + 1) _ v); [done | lia |].
    apply lookup_replicate_2. lia.
  - rewrite bind_Ok.
    rewrite (Less_by_value m _ (2 * Z.of_nat k' + 1) _ v); [done | lia |].
    apply lookup_replicate_2. lia.
Qed.

(** Had the queue held pointers to live objects, the rest of the
    constructor would go through: it returns the same slots in some order,
    the handle on one of them and a zero counter. *)
Lemma newTocScoreDocCollector_from_live m docs :
  live m docs → docs ≠ [] →
  ∃ c,
    newTocScoreDocCollector_from m docs = Ok c ∧
    objs c = m ∧ pq c ≡ₚ docs ∧ AnyPtr (pqTop c) ∈ pq c ∧
    TotalHits c = 0 ∧ docBase c = 0.
Proof.
  intros Hl Hne. unfold newTocScoreDocCollector_from.
  destruct (heap_Init_live m docs Hl) as (items & -> & Hp). rewrite bind_Ok.
  assert (live m items) as Hl1 by by eapply live_Permutation.
  destruct (heap_Pop_live m items Hl1) as (x & items1 & -> & _ & Hp1).
  { rewrite (Len_Permutation _ _ Hp). unfold PriorityQueue.Len.
    destruct docs; [done | cbn; lia]. }
  rewrite bind_Ok.
  assert (live m (x :: items1)) as Hl2 by by eapply live_Permutation.
  destruct (live_cons_inv m x items1 Hl2) as [(p & d & -> & Hd) _].
  cbn [assertPtr]. rewrite bind_Ok.
  destruct (heap_Push_live m items1 (AnyPtr p) Hl2) as (items2 & -> & Hp2).
  rewrite bind_Ok. eexists. split; [done|]. cbn.
  split; [done|]. split; [by rewrite Hp2, Hp1|].
  split; [rewrite Hp2; apply list_elem_of_here | done].
Qed.

(** No capacity yields a collector: a negative one fails in [make], zero in
    the first [heap.Pop], and from one on the placeholders stored by value
    fail the assertion to [*ScoreDoc]. *)
Lemma newTocScoreDocCollector_panics (numHits : Z) :
  newTocScoreDocCollector numHits
    = Panic (if numHits <? 0 then MakeSliceLen
             else if numHits =? 0 then IndexOutOfRange
             else TypeAssertion).
Proof.
  unfold newTocScoreDocCollector, makeDocs.
  destruct (Z.ltb_spec numHits 0); [done|]. rewrite bind_Ok.
  destruct (Z.eqb_spec numHits 0) as [->|Hne]; [by vm_compute|].
  destruct (decide (numHits = 1)) as [->|Hne1]; [by vm_compute|].
  unfold newTocScoreDocCollector_from.
  rewrite heap_Init_by_value; [done | lia].
Qed.

Lemma search_panics (k base : Z) (hits : list (float * Z)) :
  search k base hits
    = Panic (if k <? 0 then MakeSliceLen
             else if k =? 0 then IndexOutOfRange
             else TypeAssertion).
Proof.
  unfold search, NewInOrderTopScoreDocCollector.
  by rewrite newTocScoreDocCollector_panics.
Qed.

(** The public constructor never returns a collector; only a negative
    capacity is refused with the message that asks for a positive one. *)
Lemma NewTopScoreDocCollector_negative numHits after inOrder :
  numHits < 0 →
  NewTopScoreDocCollector numHits after inOrder
  = Panic (Message "numHits must be > 0; please use TotalHitCountCollector if you just need the total hit count").
Proof.
  intros Hneg. unfold NewTopScoreDocCollector.
  by destruct (Z.ltb_spec numHits 0); [|lia].
Qed.

Lemma NewTopScoreDocCollector_panics numHits after inOrder :
  is_Panic (NewTopScoreDocCollector numHits after inOrder).
Proof.
  unfold NewTopScoreDocCollector, NewInOrderTopScoreDocCollector.
  destruct (numHits <? 0); [by eexists|].
  destruct inOrder; [|by eexists].
  rewrite newTocScoreDocCollector_panics. by eexists.
Qed.

(** A real score, one strictly above the placeholder's, can be at most the
    worst retained score only when no placeholder is left: while
    placeholders remain for the candidates not yet counted, such a hit is
    rejected only once the capacity has been counted. *)
Lemma real_score_rejected_only_when_full c scr w :
  worstScore c w → PrimFloat.leb scr w = true →
  PrimFloat.ltb (score sentinel) scr = true →
  (TotalHits c < PriorityQueue.Len (pq c) → Some sentinel ∈ entries c) →
  PriorityQueue.Len (pq c) ≤ TotalHits c.
Proof.
  intros [_ Hw] Hle Hreal Hinv.
  destruct (Z.le_gt_cases (PriorityQueue.Len (pq c)) (TotalHits c)) as [|Hlt];
    [done|].
  pose proof (score_leb_trans _ _ _ Hle (Hw sentinel (Hinv ltac:(lia)))) as H1.
  by rewrite (score_ltb_not_leb _ _ Hreal) in H1.
Qed.

(** ** What every [Collect] call keeps *)

(** On a queue of live pointers that contains the handle, [Collect] returns;
    the queue keeps its length, stays live and still contains the handle. *)
Lemma Collect_total c scr d :
  live (objs c) (pq c) → AnyPtr (pqTop c) ∈ pq c →
  ∃ c',
    Collect c scr d = Ok c' ∧
    live (objs c') (pq c') ∧ AnyPtr (pqTop c') ∈ pq c' ∧
    length (pq c') = length (pq c) ∧
    TotalHits c' = wrap (TotalHits c + 1) ∧
    pqTop c' = pqTop c ∧ docBase c' = docBase c ∧ hook c' = hook c.
Proof.
  intros Hl Hin. destruct (handle_entry c Hl Hin) as (top & Ht & _).
  destruct (PrimFloat.leb scr (score top)) eqn:Hle.
  - rewrite (Collect_reject c scr d top Ht Hle). by eexists.
  - destruct (Collect_accept c scr d top Hl) as (x & items1 & items2 & -> & Hx & Hp & Hp2);
      [|done..|].
    { unfold PriorityQueue.Len. apply list_elem_of_lookup in Hin as [k Hk].
      apply lookup_lt_Some in Hk. lia. }
    eexists. split; [done|]. cbn. repeat split; try done.
    + eapply live_Permutation; [exact Hp2|].
      apply Forall_cons. split.
      * exists (pqTop c), (hit c scr d). split; [done|]. apply lookup_insert_eq.
      * apply live_store_insert.
        destruct (live_cons_inv (objs c) x items1) as [_ H1]; [|done].
        by eapply live_Permutation.
    + rewrite Hp2. apply list_elem_of_here.
    + by rewrite Hp2, <- Hp.
Qed.

(** A sequence of hits is collected without a panic; the queue keeps its
    capacity and the counter advances by one per hit. *)
Lemma collectAll_total hits : ∀ c,
  live (objs c) (pq c) → AnyPtr (pqTop c) ∈ pq c →
  0 ≤ TotalHits c → TotalHits c + Z.of_nat (length hits) ≤ MaxInt →
  ∃ c',
    collectAll c hits = Ok c' ∧
    live (objs c') (pq c') ∧ AnyPtr (pqTop c') ∈ pq c' ∧
    length (pq c') = length (pq c) ∧
    TotalHits c' = TotalHits c + Z.of_nat (length hits).
Proof.
  induction hits as [|[scr d] hits IH]; intros c Hl Hin H0 Hmax.
  - exists c. cbn. repeat split; [done.. | lia].
  - cbn [collectAll]. cbn [length] in Hmax.
    destruct (Collect_total c scr d Hl Hin)
      as (c1 & -> & Hl1 & Hin1 & Hlen1 & Ht1 & _).
    rewrite bind_Ok.
    assert (TotalHits c1 = TotalHits c + 1) as Ht1'.
    { rewrite Ht1. unfold wrap, MaxInt in *. rewrite Z.mod_small; lia. }
    destruct (IH c1 Hl1 Hin1) as (c' & -> & Hl' & Hin' & Hlen' & Ht'); [lia..|].
    exists c'. repeat split; [done.. | congruence | cbn [length]; lia].
Qed.

(** ** The counter does not enter the extracted hits *)



(** ** Extraction over a bad range *)

Lemma TopDocsRange_bad_range c start howMany :
  start < 0 ∨ TopDocsCollector.topDocsSize c ≤ start ∨ howMany ≤ 0 →
  TopDocsCollector.TopDocsRange c start howMany = Ok (mkTopDocs 0 [] nan, c).
Proof.
  intros Hbad. unfold TopDocsCollector.TopDocsRange.
  destruct (Z.ltb_spec start 0),
           (Z.leb_spec (TopDocsCollector.topDocsSize c) start),
           (Z.leb_spec howMany 0); try done; lia.
Qed.

(** ** The queue as a heap

    What [container/heap] maintains when the queue holds pointers to live
    objects without NaN scores: [down] repairs a heap, [heap.Pop] returns a
    least slot, and draining the queue yields the hits worst first. *)

Section HeapOrder.

Context (m : gmap addr ScoreDoc).
Hypothesis Hord : orderedStore m.

Lemma value_live items k :
  live m items → (k < length items)%nat →
  ∃ v, value m items k = Some v ∧ ordered v.
Proof.
  intros Hl Hk. destruct (lookup_lt_is_Some_2 items k Hk) as [x Hx].
  destruct (live_lookup m _ _ _ Hl Hx) as (p & d & -> & Hd).
  exists d. unfold value. rewrite Hx. cbn. split; [done|]. by eapply Hord.
Qed.

Lemma index_nat {A} (s : list A) (k : nat) (x : A) :
  s !! k = Some x → index s (Z.of_nat k) = Ok x.
Proof. intros Hk. apply index_Ok. split; [lia | by rewrite Nat2Z.id]. Qed.

Lemma Less_lessAt items a b :
  live m items → (a < length items)%nat → (b < length items)%nat →
  PriorityQueue.Less m items (Z.of_nat a) (Z.of_nat b)
  = Ok (lessAt m items a b).
Proof.
  intros Hl Ha Hb.
  destruct (lookup_lt_is_Some_2 items a Ha) as [xa Hxa].
  destruct (lookup_lt_is_Some_2 items b Hb) as [xb Hxb].
  destruct (live_lookup m _ _ _ Hl Hxa) as (pa & da & -> & Hda).
  destruct (live_lookup m _ _ _ Hl Hxb) as (pb & db & -> & Hdb).
  unfold PriorityQueue.Less, lessAt, value, deref.
  rewrite (index_nat _ _ _ Hxa), (index_nat _ _ _ Hxb), Hxa, Hxb.
  cbn. by rewrite Hda, Hdb.
Qed.

Lemma Swap_swapped items i j :
  (i < length items)%nat → (j < length items)%nat →
  PriorityQueue.Swap items (Z.of_nat i) (Z.of_nat j) = Ok (swapped items i j).
Proof.
  intros Hi Hj.
  destruct (lookup_lt_is_Some_2 items i Hi) as [xi Hxi].
  destruct (lookup_lt_is_Some_2 items j Hj) as [xj Hxj].
  unfold PriorityQueue.Swap, swapped.
  rewrite (index_nat _ _ _ Hxi), (index_nat _ _ _ Hxj), Hxi, Hxj, !Nat2Z.id.
  done.
Qed.

Lemma lookup_swapped items i j k :
  (i < length items)%nat → (j < length items)%nat →
  swapped items i j !! k = items !! transpose i j k.
Proof.
  intros Hi Hj.
  destruct (lookup_lt_is_Some_2 items i Hi) as [xi Hxi].
  destruct (lookup_lt_is_Some_2 items j Hj) as [xj Hxj].
  unfold swapped, transpose. rewrite Hxi, Hxj.
  destruct (decide (k = j)) as [->|Hkj].
  - rewrite list_lookup_insert_eq by (rewrite length_insert; lia).
    destruct (decide (j = i)) as [->|]; [congruence | done].
  - rewrite list_lookup_insert_ne by done.
    destruct (decide (k = i)) as [->|Hki].
    + by rewrite list_lookup_insert_eq by lia.
    + by rewrite list_lookup_insert_ne by done.
Qed.

Lemma swapped_Permutation items i j : swapped items i j ≡ₚ items.
Proof.
  unfold swapped. destruct (items !! i) eqn:Hi; [|done].
  destruct (items !! j) eqn:Hj; [|done]. by apply insert_swap_Permutation.
Qed.

Lemma length_swapped items i j : length (swapped items i j) = length items.
Proof. by rewrite swapped_Permutation. Qed.

Lemma lessAt_swapped items i j a b :
  (i < length items)%nat → (j < length items)%nat →
  lessAt m (swapped items i j) a b
  = lessAt m items (transpose i j a) (transpose i j b).
Proof.
  intros Hi Hj. unfold lessAt, value. by rewrite !lookup_swapped.
Qed.

Lemma lessAt_irrefl items a : lessAt m items a a = false.
Proof.
  unfold lessAt. destruct (value m items a); [apply lessHit_irrefl | done].
Qed.

Lemma lessAt_asym items a b :
  live m items → lessAt m items a b = true → lessAt m items b a = false.
Proof.
  intros Hl. unfold lessAt.
  destruct (value m items a) as [x|] eqn:Hx; [|done].
  destruct (value m items b) as [y|] eqn:Hy; [|done].
  apply lessHit_asym.
  - unfold value in Hx. destruct (items !! a) as [xa|] eqn:Ha; [|done].
    destruct (live_lookup m _ _ _ Hl Ha) as (p & d & -> & Hd).
    cbn in Hx. rewrite Hd in Hx. injection Hx as <-. by eapply Hord.
  - unfold value in Hy. destruct (items !! b) as [xb|] eqn:Hb; [|done].
    destruct (live_lookup m _ _ _ Hl Hb) as (p & d & -> & Hd).
    cbn in Hy. rewrite Hd in Hy. injection Hy as <-. by eapply Hord.
Qed.

Lemma lessAt_trans items a b c :
  live m items →
  (a < length items)%nat → (b < length items)%nat → (c < length items)%nat →
  lessAt m items a b = false → lessAt m items b c = false →
  lessAt m items a c = false.
Proof.
  intros Hl Ha Hb Hc.
  destruct (value_live items a Hl Ha) as (x & Hx & Ox).
  destruct (value_live items b Hl Hb) as (y & Hy & Oy).
  destruct (value_live items c Hl Hc) as (z & Hz & Oz).
  unfold lessAt. rewrite Hx, Hy, Hz. by apply notLess_trans.
Qed.

Lemma smallerChild_child items i n : child (smallerChild m items i n) i.
Proof.
  unfold smallerChild, child. destruct (decide _); [|lia].
  destruct (lessAt _ _ _ _); lia.
Qed.

Lemma smallerChild_lt items i n :
  (2 * i + 1 < n)%nat → (smallerChild m items i n < n)%nat.
Proof.
  unfold smallerChild. intros Hn. destruct (decide _); [|lia].
  destruct (lessAt _ _ _ _); lia.
Qed.

Lemma down_step fuel items i n :
  live m items → (n ≤ length items)%nat →
  heap.down (S fuel) m items (Z.of_nat i) (Z.of_nat n)
  = if decide (n ≤ 2 * i + 1)%nat then Ok items
    else if lessAt m items (smallerChild m items i n) i
         then heap.down fuel m (swapped items i (smallerChild m items i n))
                (Z.of_nat (smallerChild m items i n)) (Z.of_nat n)
         else Ok items.
Proof.
  intros Hl Hn. cbn [heap.down].
  replace (2 * Z.of_nat i + 1) with (Z.of_nat (2 * i + 1)) by lia.
  replace (Z.of_nat (2 * i + 1) + 1) with (Z.of_nat (2 * i + 2)) by lia.
  destruct (decide (n ≤ 2 * i + 1)%nat) as [Hle|Hgt].
  { destruct (Z.leb_spec (Z.of_nat n) (Z.of_nat (2 * i + 1))); [done | lia]. }
  destruct (Z.leb_spec (Z.of_nat n) (Z.of_nat (2 * i + 1))); [lia|].
  destruct (Z.ltb_spec (Z.of_nat (2 * i + 1)) 0); [lia|]. cbn [orb].
  assert (∃ j, (if Z.of_nat (2 * i + 2) <? Z.of_nat n
                then b ← PriorityQueue.Less m items (Z.of_nat (2 * i + 2))
                           (Z.of_nat (2 * i + 1));
                     Ok (if b : bool then Z.of_nat (2 * i + 2)
                         else Z.of_nat (2 * i + 1))
                else Ok (Z.of_nat (2 * i + 1))) = Ok (Z.of_nat j)
               ∧ j = smallerChild m items i n) as (j & -> & ->).
  { unfold smallerChild.
    destruct (Z.ltb_spec (Z.of_nat (2 * i + 2)) (Z.of_nat n)),
             (decide (2 * i + 2 < n)%nat); try lia.
    - rewrite Less_lessAt by (done || lia). rewrite bind_Ok.
      destruct (lessAt _ _ _ _); eauto.
    - eauto. }
  rewrite bind_Ok.
  pose proof (smallerChild_lt items i n ltac:(lia)) as Hj.
  pose proof (smallerChild_child items i n) as Hc.
  rewrite Less_lessAt by (done || unfold child in Hc; lia). rewrite bind_Ok.
  destruct (lessAt m items (smallerChild m items i n) i); cbn [negb]; [|done].
  rewrite Swap_swapped by (unfold child in Hc; lia). by rewrite bind_Ok.
Qed.

(** [down] repairs a heap whose only defect is at its starting index. *)
Lemma heap_down_heap fuel : ∀ items i n items',
  live m items → (n ≤ length items)%nat →
  heap.down fuel m items (Z.of_nat i) (Z.of_nat n) = Ok items' →
  holeOK m items i n → heapOK m items' n.
Proof.
  induction fuel as [|fuel IH]; intros items i n items' Hl Hn Hd [H1 H2];
    [done|].
  rewrite down_step in Hd by done.
  destruct (decide (n ≤ 2 * i + 1)%nat) as [Hle|Hgt].
  { injection Hd as <-. intros p c Hc Hcn.
    destruct (decide (p = i)) as [->|]; [unfold child in Hc; lia | by apply H1]. }
  pose proof (smallerChild_lt items i n ltac:(lia)) as Hj.
  pose proof (smallerChild_child items i n) as Hjc.
  set (j := smallerChild m items i n) in *.
  assert (∀ c, child c i → (c < n)%nat → lessAt m items c j = false) as Hmin.
  { intros c Hc Hcn. subst j. unfold smallerChild.
    unfold child in Hc.
    destruct (decide (2 * i + 2 < n)%nat).
    - destruct (lessAt m items (2 * i + 2) (2 * i + 1)) eqn:E;
        destruct Hc as [->| ->];
        auto using lessAt_irrefl, lessAt_asym.
    - destruct Hc as [->| ->]; [apply lessAt_irrefl | lia]. }
  destruct (lessAt m items j i) eqn:Hji.
  - (* the smaller child moves up *)
    eapply (IH (swapped items i j) j n items'); [| |exact Hd|].
    + eapply live_Permutation; [apply swapped_Permutation | done].
    + by rewrite length_swapped.
    + unfold child in Hjc. split.
      * intros p c Hpj Hc Hcn.
        rewrite lessAt_swapped by lia. unfold transpose, child in *.
        repeat case_decide; subst; try lia.
        -- apply (H2 p j); lia.
        -- by apply lessAt_asym.
        -- apply Hmin; lia.
        -- apply H1; lia.
      * intros g c Hg Hc Hcn.
        rewrite lessAt_swapped by lia. unfold transpose, child in *.
        repeat case_decide; subst; try lia.
        apply H1; lia.
  - (* nothing to repair *)
    injection Hd as <-. intros p c Hc Hcn.
    destruct (decide (p = i)) as [->|]; [|by apply H1].
    apply (lessAt_trans items c j i); try done; try lia.
    by apply Hmin.
Qed.

Lemma lessAt_lessAny items a b x y :
  items !! a = Some x → items !! b = Some y →
  lessAt m items a b = lessAny m x y.
Proof. intros Ha Hb. unfold lessAt, lessAny, value. by rewrite Ha, Hb. Qed.

(** In a heap no slot is less than the root. *)
Lemma root_minimal items n :
  live m items → (n ≤ length items)%nat → heapOK m items n →
  ∀ k, (k < n)%nat → lessAt m items k 0 = false.
Proof.
  intros Hl Hn Hh k. induction k as [k IH] using lt_wf_ind. intros Hk.
  destruct (decide (k = 0)%nat) as [->|Hk0]; [apply lessAt_irrefl|].
  assert (child k ((k - 1) / 2)) as Hc.
  { unfold child.
    pose proof (Nat.div_mod (k - 1) 2 ltac:(lia)) as Hdm.
    pose proof (Nat.mod_upper_bound (k - 1) 2 ltac:(lia)). lia. }
  assert ((k - 1) / 2 < k)%nat as Hp by (unfold child in Hc; lia).
  apply (lessAt_trans items k ((k - 1) / 2) 0); try done; try lia.
  - by apply Hh.
  - apply IH; lia.
Qed.

Lemma heapOK_take items n :
  heapOK m items n → heapOK m (take n items) n.
Proof.
  intros Hh p c Hc Hcn. unfold lessAt, value.
  rewrite !lookup_take_lt by (unfold child in Hc; lia). by apply Hh.
Qed.

(** [heap.Pop] repairs a heap whose root alone is out of order. *)
Lemma heap_Pop_repairs items :
  live m items → (0 < length items)%nat →
  (∀ p c, p ≠ 0%nat → child c p → (c < length items)%nat →
          lessAt m items c p = false) →
  ∃ x items',
    heap.Pop m items = Ok (x, items') ∧
    items !! 0%nat = Some x ∧
    x :: items' ≡ₚ items ∧
    live m items' ∧
    heapOK m items' (length items').
Proof.
  intros Hl Hn Hh.
  destruct (heap_Pop_live m items Hl) as (x & items' & HPop & Hroot & Hperm);
    [unfold PriorityQueue.Len; lia|].
  exists x, items'. split; [done|]. split; [done|]. split; [done|].
  assert (live m items') as Hl'.
  { destruct (live_cons_inv m x items') as [_ H]; [|done].
    by eapply live_Permutation. }
  split; [done|].
  assert (length items = S (length items')) as HL by by rewrite <- Hperm.
  unfold heap.Pop in HPop.
  replace (PriorityQueue.Len items - 1) with (Z.of_nat (length items'))
    in HPop by (unfold PriorityQueue.Len; lia).
  change 0 with (Z.of_nat 0) in HPop.
  rewrite Swap_swapped, bind_Ok in HPop by lia.
  set (items1 := swapped items 0 (length items')) in *.
  assert (live m items1) as Hl1
    by (eapply live_Permutation; [apply swapped_Permutation | done]).
  assert (length items1 = length items) as HL1 by apply length_swapped.
  destruct (heap_down_fuel m (heap.fuel_for (Z.of_nat (length items')))
              items1 (Z.of_nat 0) (Z.of_nat (length items')) Hl1)
    as (items2 & Hd & Hp2 & _);
    [lia | unfold PriorityQueue.Len; lia | unfold heap.fuel_for; lia |].
  rewrite Hd, bind_Ok in HPop.
  assert (heapOK m items2 (length items')) as Hh2.
  { eapply heap_down_heap; [exact Hl1 | lia | exact Hd |].
    split.
    - intros p c Hp Hc Hcn. subst items1.
      rewrite lessAt_swapped by lia. unfold transpose, child in *.
      repeat case_decide; subst; try lia. apply Hh; [done | done | lia].
    - intros g c Hg. unfold child in Hg. lia. }
  unfold PriorityQueue.Pop in HPop.
  assert (PriorityQueue.Len items2 - 1 = Z.of_nat (length items')) as HL2.
  { unfold PriorityQueue.Len. rewrite Hp2, HL1. lia. }
  rewrite HL2, Nat2Z.id in HPop.
  destruct (index items2 (Z.of_nat (length items'))) as [y|];
    [|done]. rewrite bind_Ok in HPop. injection HPop as _ <-.
  rewrite length_take_le by (rewrite Hp2, HL1; lia).
  by apply heapOK_take.
Qed.

(** [heap.Pop] on a heap returns a least slot and leaves a heap. *)
Lemma heap_Pop_heap items :
  live m items → heapOK m items (length items) → (0 < length items)%nat →
  ∃ x items',
    heap.Pop m items = Ok (x, items') ∧
    items !! 0%nat = Some x ∧
    x :: items' ≡ₚ items ∧
    live m items' ∧
    heapOK m items' (length items') ∧
    Forall (λ y, lessAny m y x = false) items.
Proof.
  intros Hl Hh Hn.
  destruct (heap_Pop_repairs items Hl Hn)
    as (x & items' & HPop & Hroot & Hperm & Hl' & Hh');
    [intros p c _ Hc Hcn; by apply Hh|].
  exists x, items'. repeat (split; [done|]).
  apply Forall_forall. intros y Hy.
  apply list_elem_of_lookup in Hy as [k Hk].
  rewrite <- (lessAt_lessAny items k 0 y x Hk Hroot).
  apply (root_minimal items (length items)); try done.
  by eapply lookup_lt_Some.
Qed.

Lemma StronglySorted_snoc {A} (R : A → A → Prop) (l : list A) (x : A) :
  StronglySorted R l → Forall (λ y, R y x) l → StronglySorted R (l ++ [x]).
Proof.
  induction 1 as [|a l Hs IH Ha]; intros Hx; cbn.
  - repeat constructor.
  - apply Forall_cons in Hx as [Hax Hx]. constructor; [by apply IH|].
    apply Forall_app. split; [done|]. by constructor.
Qed.

Lemma heap_discard_heap k : ∀ items,
  live m items → heapOK m items (length items) → (k ≤ length items)%nat →
  ∃ items' dropped,
    heap.discard k m items = Ok items' ∧
    live m items' ∧ heapOK m items' (length items') ∧
    dropped ++ items' ≡ₚ items ∧ length dropped = k ∧
    Forall (λ d, Forall (λ y, lessAny m y d = false) items') dropped.
Proof.
  induction k as [|k IH]; intros items Hl Hh Hk; cbn [heap.discard].
  - exists items, []. by repeat split.
  - destruct (heap_Pop_heap items Hl Hh)
      as (x & items1 & -> & _ & Hp & Hl1 & Hh1 & Hmin); [lia|].
    rewrite bind_Ok.
    assert (length items = S (length items1)) as HL by by rewrite <- Hp.
    destruct (IH items1 Hl1 Hh1) as (items' & dropped & -> & Hl' & Hh' & Hp' & Hd & Hall);
      [lia|].
    exists items', (x :: dropped). split; [done|]. split; [done|].
    split; [done|]. split; [by rewrite <- Hp, <- Hp'|].
    split; [cbn; lia|]. constructor; [|done].
    apply Forall_forall. intros y Hy.
    apply (proj1 (Forall_forall _ _) Hmin).
    rewrite <- Hp, <- Hp'. set_solver.
Qed.

Lemma populateResults_heap k : ∀ items ans,
  live m items → heapOK m items (length items) →
  (k ≤ length items)%nat → (k ≤ length ans)%nat →
  ∃ items' ans' popped,
    TopDocsCollector.populateResults k m items ans = Ok (items', ans') ∧
    live m items' ∧ heapOK m items' (length items') ∧
    length ans' = length ans ∧
    (∀ j, (k ≤ j)%nat → ans' !! j = ans !! j) ∧
    popped ++ items' ≡ₚ items ∧
    entry m <$> popped = Some <$> reverse (take k ans') ∧
    StronglySorted notBelow (take k ans') ∧
    Forall (λ d, Forall (λ y, lessAny m y d = false) items') popped.
Proof.
  induction k as [|k IH]; intros items ans Hl Hh Hk Ha;
    cbn [TopDocsCollector.populateResults].
  - exists items, ans, []. repeat split; try done; constructor.
  - destruct (heap_Pop_heap items Hl Hh)
      as (x & items1 & -> & Hroot & Hp & Hl1 & Hh1 & Hmin); [lia|].
    rewrite bind_Ok.
    assert (length items = S (length items1)) as HL by by rewrite <- Hp.
    destruct (live_lookup m _ _ _ Hl Hroot) as (p & d & -> & Hd).
    cbn [assertPtr]. rewrite bind_Ok. unfold deref. rewrite Hd, bind_Ok.
    destruct (index_in_range ans (Z.of_nat k)) as (a & -> & _); [lia|].
    rewrite bind_Ok.
    destruct (IH items1 (<[k := d]> ans) Hl1 Hh1)
      as (items' & ans' & popped & -> & Hl' & Hh' & HA & Hkeep & Hp' & Hvals & Hs & Hall);
      [lia | rewrite length_insert; lia |].
    rewrite length_insert in HA.
    assert (ans' !! k = Some d) as Hk'.
    { rewrite Hkeep by lia. apply list_lookup_insert_eq. lia. }
    assert (∀ y, y ∈ items1 → lessAny m y (AnyPtr p) = false) as Hmin1.
    { intros y Hy. apply (proj1 (Forall_forall _ _) Hmin).
      rewrite <- Hp. set_solver. }
    exists items', ans', (AnyPtr p :: popped).
    split; [done|]. split; [done|]. split; [done|]. split; [done|].
    split.
    { intros j Hj. rewrite Hkeep by lia. apply list_lookup_insert_ne. lia. }
    split; [by rewrite <- Hp, <- Hp'|].
    rewrite (take_S_r _ _ _ Hk'). split.
    { rewrite reverse_snoc. cbn. by rewrite Hd, Hvals. }
    split.
    { apply StronglySorted_snoc; [done|].
      apply Forall_forall. intros r Hr.
      assert (Some r ∈ entry m <$> popped) as Hin.
      { rewrite Hvals. apply list_elem_of_fmap_2. by apply elem_of_reverse. }
      apply list_elem_of_fmap in Hin as (y & Hy & Hyp).
      specialize (Hmin1 y ltac:(rewrite <- Hp'; set_solver)).
      unfold lessAny in Hmin1. cbn in Hmin1. by rewrite <- Hy, Hd in Hmin1. }
    constructor; [|done].
    apply Forall_forall. intros y Hy. apply Hmin1. rewrite <- Hp'. set_solver.
Qed.

(** *** Insertion *)

Lemma parent_child (j : nat) : j ≠ 0%nat → child j ((j - 1) / 2).
Proof.
  intros Hj. unfold child.
  pose proof (Nat.div_mod (j - 1) 2 ltac:(lia)) as Hdm.
  pose proof (Nat.mod_upper_bound (j - 1) 2 ltac:(lia)). lia.
Qed.

Lemma up_step fuel items j :
  live m items → (j < length items)%nat →
  heap.up (S fuel) m items (Z.of_nat j)
  = if decide (j = 0)%nat then Ok items
    else if lessAt m items j ((j - 1) / 2)
         then heap.up fuel m (swapped items ((j - 1) / 2) j)
                (Z.of_nat ((j - 1) / 2))
         else Ok items.
Proof.
  intros Hl Hj. cbn [heap.up].
  destruct (decide (j = 0)%nat) as [->|Hne]; [done|].
  pose proof (parent_child j Hne) as Hc. unfold child in Hc.
  replace ((Z.of_nat j - 1) ÷ 2) with (Z.of_nat ((j - 1) / 2)).
  2:{ rewrite Z.quot_div_nonneg by lia. rewrite Nat2Z.inj_div. f_equal. lia. }
  destruct (Z.eqb_spec (Z.of_nat ((j - 1) / 2)) (Z.of_nat j)); [lia|].
  rewrite Less_lessAt by (done || lia). rewrite bind_Ok.
  destruct (lessAt m items j ((j - 1) / 2)); cbn [negb]; [|done].
  rewrite Swap_swapped by lia. by rewrite bind_Ok.
Qed.

(** [up] repairs a heap whose only defect is at its starting index. *)
Lemma heap_up_heap fuel : ∀ items j n items',
  live m items → n = length items → (j < n)%nat →
  heap.up fuel m items (Z.of_nat j) = Ok items' →
  upOK m items j n → heapOK m items' n.
Proof.
  induction fuel as [|fuel IH]; intros items j n items' Hl Hn Hj Hu [H1 H2];
    [done|].
  rewrite up_step in Hu by (done || lia).
  destruct (decide (j = 0)%nat) as [->|Hne].
  { injection Hu as <-. intros p c Hc Hcn. apply H1; [|done..].
    unfold child in Hc. lia. }
  pose proof (parent_child j Hne) as Hji. set (i := ((j - 1) / 2)%nat) in *.
  assert (i < j)%nat as Hij by (unfold child in Hji; lia).
  destruct (lessAt m items j i) eqn:Hless.
  - assert (lessAt m items i j = false) as Hasym by by apply lessAt_asym.
    eapply (IH (swapped items i j) i n items'); [| | |exact Hu|].
    + eapply live_Permutation; [apply swapped_Permutation | done].
    + by rewrite length_swapped.
    + lia.
    + split.
      * intros p c Hci Hc Hcn.
        rewrite lessAt_swapped by lia. unfold transpose.
        destruct (decide (c = i)) as [|_]; [done|].
        destruct (decide (c = j)) as [->|Hcj].
        { assert (p = i) as -> by (unfold child in *; lia).
          by rewrite decide_True. }
        destruct (decide (p = i)) as [->|Hpi].
        { apply (lessAt_trans items c i j); try done; try lia.
          by apply H1. }
        destruct (decide (p = j)) as [->|Hpj]; [by apply (H2 i c)|].
        by apply H1.
      * intros g c Hg Hc Hcn.
        rewrite lessAt_swapped by lia. unfold transpose.
        assert (g < i)%nat as Hgi by (unfold child in Hg; lia).
        rewrite (decide_False (P := g = i)), (decide_False (P := g = j)) by lia.
        destruct (decide (c = i)) as [->|_]; [unfold child in Hc; lia|].
        destruct (decide (c = j)) as [->|Hcj]; [apply H1; [lia | done | lia]|].
        apply (lessAt_trans items c i g); try done; try lia.
        -- by apply H1.
        -- apply H1; [lia | done | lia].
  - injection Hu as <-. intros p c Hc Hcn.
    destruct (decide (c = j)) as [->|Hcj]; [|by apply H1].
    assert (p = i) as -> by (unfold child in *; lia). done.
Qed.

(** [heap.Push] into a heap gives a heap. *)
Lemma heap_Push_heap items x :
  live m (x :: items) → heapOK m items (length items) →
  ∃ items',
    heap.Push m items x = Ok items' ∧ items' ≡ₚ x :: items ∧
    live m items' ∧ heapOK m items' (length items').
Proof.
  intros Hl Hh.
  destruct (heap_Push_live m items x Hl) as (items' & HPush & Hperm).
  exists items'. split; [done|]. split; [done|].
  split; [by eapply live_Permutation|].
  unfold heap.Push, PriorityQueue.Push, PriorityQueue.Len in HPush.
  rewrite length_app in HPush. cbn [length] in HPush.
  replace (Z.of_nat (length items + 1) - 1) with (Z.of_nat (length items))
    in HPush by lia.
  assert (length items' = S (length items)) as -> by by rewrite Hperm.
  eapply heap_up_heap; [| | |exact HPush|].
  - eapply live_Permutation; [|exact Hl].
    by rewrite Permutation_app_comm.
  - rewrite length_app. cbn. lia.
  - lia.
  - split.
    + intros p c Hcj Hc Hcn. unfold lessAt, value.
      rewrite !lookup_app_l by (unfold child in Hc; lia).
      apply Hh; [done | lia].
    + intros g c _ Hc Hcn. unfold child in Hc. lia.
Qed.

End HeapOrder.

(** ** Extraction from a heap *)

Lemma Forall_Forall_elem_of {A B} (Q : A → B → Prop) (l1 : list B) (l2 : list A) :
  Forall (λ d, Forall (λ y, Q y d) l2) l1 →
  ∀ d y, d ∈ l1 → y ∈ l2 → Q y d.
Proof.
  intros H d y Hd Hy.
  exact (proj1 (Forall_forall _ _) (proj1 (Forall_forall _ _) H d Hd) y Hy).
Qed.

Lemma lessAny_irrefl m x : lessAny m x x = false.
Proof. unfold lessAny. destruct (entry m x); [apply lessHit_irrefl | done]. Qed.

Lemma entry_ordered m x v :
  orderedStore m → entry m x = Some v → ordered v.
Proof. intros Hord Hx. destruct x as [?|p]; [done|]. by eapply Hord. Qed.

Lemma lessAny_leb m x y vx vy :
  orderedStore m → entry m x = Some vx → entry m y = Some vy →
  lessAny m x y = false → PrimFloat.leb (score vy) (score vx) = true.
Proof.
  intros Hord Hx Hy. unfold lessAny. rewrite Hx, Hy.
  apply notLess_leb; by eapply entry_ordered.
Qed.

(** The hook that recovers the maximum score, on a heap: the score it
    reports belongs to a slot that no slot of the queue is ranked above. *)
Lemma newTopDocs_best c rs start :
  orderedStore (objs c) → live (objs c) (pq c) →
  heapOK (objs c) (pq c) (length (pq c)) →
  hook c = ScoreHook → start ≠ 0 → (0 < length (pq c))%nat →
  ∃ td c' x vx,
    TopDocsCollector.newTopDocs c (Some rs) start = Ok (td, c') ∧
    scoreDocs td = rs ∧
    x ∈ pq c ∧ entry (objs c) x = Some vx ∧ maxScore td = score vx ∧
    Forall (λ y, lessAny (objs c) x y = false) (pq c).
Proof.
  intros Hord Hl Hh Hhook Hs Hn. unfold TopDocsCollector.newTopDocs.
  rewrite Hhook. destruct (Z.eqb_spec start 0); [done|].
  destruct (heap_discard_heap (objs c) Hord
              (Z.to_nat (PriorityQueue.Len (pq c) - 1)) (pq c) Hl Hh)
    as (items & dropped & -> & Hl1 & Hh1 & Hp & Hd & Hall);
    [unfold PriorityQueue.Len; lia|].
  rewrite bind_Ok.
  assert (length items = 1%nat) as HL1.
  { assert (length (dropped ++ items) = length (pq c)) as E by by rewrite Hp.
    rewrite length_app in E. unfold PriorityQueue.Len in Hd. lia. }
  destruct (heap_Pop_heap (objs c) Hord items Hl1 Hh1)
    as (x & items' & -> & Hroot & Hp1 & _); [lia|].
  rewrite bind_Ok.
  destruct (live_lookup (objs c) _ _ _ Hl1 Hroot) as (p & vx & -> & Hvx).
  cbn [assertPtr]. rewrite bind_Ok. unfold deref. rewrite Hvx, bind_Ok.
  assert (items = [AnyPtr p]) as ->.
  { destruct items as [|y [|z items]]; try done. by injection Hroot as ->. }
  eexists _, _, (AnyPtr p), vx. split; [done|].
  cbn [scoreDocs maxScore]. split; [done|].
  split; [rewrite <- Hp; set_solver|]. split; [done|]. split; [done|].
  apply Forall_forall. intros y Hy. rewrite <- Hp in Hy.
  apply elem_of_app in Hy as [Hy|Hy].
  - apply (Forall_Forall_elem_of _ _ _ Hall); [done | set_solver].
  - apply list_elem_of_singleton in Hy as ->. apply lessAny_irrefl.
Qed.

(** * The claims of the specification *)

(** C1.  Specification: a fresh in-order collector of capacity 3 fed the
    scores 1, 5, 3, 9, 2 with ids 100..104 returns (9,103), (5,101),
    (3,102), maximum score 9 and 5 candidates seen, and [extract(1,1)]
    returns (5,101).  On the code the collector is never built: the
    placeholders are stored by value and [heap.Init] asserts them to be
    pointers.  And on a queue filled with pointers instead, the handle
    [pqTop] is never refreshed after an insertion, so the run ends with
    three copies of (9,103). *)
Theorem C1_example_on_the_code :
  search 3 0 the_hits = Panic TypeAssertion ∧
  ∃ c c' rest rest1,
    newTocScoreDocCollector_from (sentinelStore 3) (pointerDocs 3) = Ok c ∧
    collectAll (SetNextReader c 0) the_hits = Ok c' ∧
    TopDocsCollector.TopDocs c'
      = Ok (mkTopDocs 5 [mkScoreDoc 9 103; mkScoreDoc 9 103; mkScoreDoc 9 103]
              9, rest) ∧
    TopDocsCollector.TopDocsRange c' 1 1
      = Ok (mkTopDocs 5 [mkScoreDoc 9 103] 9, rest1).
Proof.
  split; [by vm_compute|].
  eexists _, _, _, _.
  split; [vm_compute; reflexivity|].
  split; [vm_compute; reflexivity|].
  split; vm_compute; reflexivity.
Qed.

(** C2.  Specification: N hits with increasing ids collected into a
    capacity-K collector give [min(N,K)] ordered hits, best score first and
    smaller id first among equal scores.  On the code no capacity K yields
    a collector to collect into, so no search returns a result. *)
Theorem C2_no_capacity_yields_a_result (k base : Z) (hits : list (float * Z)) :
  search k base hits ≫= TopDocsCollector.TopDocs
  = Panic (if k <? 0 then MakeSliceLen
           else if k =? 0 then IndexOutOfRange
           else TypeAssertion).
Proof. by rewrite search_panics. Qed.

(** C3.  Specification: once a hit has been collected, the maximum score
    reported by [fullResult()] and by [extract(start, count)], also for
    [start > 0], is the greatest score submitted.  On the code a collector
    of capacity 1 fed the single hit (5.0, 0), and one of capacity 3 fed
    the example's hits and asked for the window (1, 1), report nothing:
    construction has already panicked.  And on a queue of one pointer to a
    placeholder, the single hit (-2^128, 0) is rejected by the placeholder,
    whose score [-math.MaxFloat32] is then reported as the maximum. *)
Theorem C3_no_maximum_is_reported :
  search 1 0 [(5%float, 0)] ≫= TopDocsCollector.TopDocs
    = Panic TypeAssertion ∧
  search 3 0 the_hits ≫= (λ c, TopDocsCollector.TopDocsRange c 1 1)
    = Panic TypeAssertion ∧
  orderedHits
    (c ← newTocScoreDocCollector_from (sentinelStore 1) (pointerDocs 1);
     c' ← collectAll c [((-0x1p+128)%float, 0)];
     TopDocsCollector.TopDocs c')
    = Ok ([sentinel], PrimFloat.opp MaxFloat32).
Proof. repeat split; by vm_compute. Qed.

(** C4.  Specification: an accepted hit replaces the least entry of the
    queue and leaves the other entries alone.  On the code the handle
    [pqTop] keeps designating the entry written last.  From the queue
    {(1.0, 0), (2.0, 1)} the hit (5.0, 2) replaces (1.0, 0), as claimed; the
    next hit (7.0, 3) then overwrites (5.0, 2) through the stale handle while
    [heap.Pop] drops (2.0, 1), and the queue holds (7.0, 3) twice instead of
    (5.0, 2) and (7.0, 3). *)
Theorem C4_second_accepted_hit_overwrites_the_first :
  ∃ c1 c2,
    Collect twoHits 5 2 = Ok c1 ∧
    pq c1 = [AnyPtr 1%nat; AnyPtr 0%nat] ∧ pqTop c1 = 0%nat ∧
    entries c1 = [Some (mkScoreDoc 2 1); Some (mkScoreDoc 5 2)] ∧
    Collect c1 7 3 = Ok c2 ∧
    pq c2 = [AnyPtr 0%nat; AnyPtr 0%nat] ∧
    entries c2 = [Some (mkScoreDoc 7 3); Some (mkScoreDoc 7 3)].
Proof.
  eexists _, _.
  do 6 (split; [vm_compute; reflexivity|]).
  vm_compute; reflexivity.
Qed.

Lemma live_twoHits : live (objs twoHits) (pq twoHits).
Proof.
  unfold live. cbn.
  repeat (apply Forall_cons; split;
          [eexists _, _; split; [reflexivity | vm_compute; reflexivity]|]).
  apply Forall_nil_2.
Defined.

Lemma handle_twoHits : AnyPtr (pqTop twoHits) ∈ pq twoHits.
Proof. apply list_elem_of_here. Defined.





(** C6 as stated fails: the empty result of a bad range reports 0
    candidates, not the collector's count.  After five hits on a queue of
    capacity 1, [extract(1, 1)] starts past the only result and returns no
    hit with [totalHits = 0], while [TotalHits] is 5. *)
Lemma C6_count_is_not_preserved :
  ∃ td,
    TopDocsCollector.TopDocsRange fiveSeen 1 1 = Ok (td, fiveSeen) ∧
    scoreDocs td = [] ∧
    totalHits td ≠ TotalHits fiveSeen.
Proof. eexists. split; [vm_compute; reflexivity|]. split; [done|]. by cbn. Qed.

(** C6, amended.  In every state, [extract(start, count)] with [start < 0],
    [start >= effectiveSize()] or [count <= 0] returns no hit, the maximum
    score NaN and the count 0, whatever the collector has counted; the
    collector, its counter included, is left as it was. *)
Theorem C6_bad_range_gives_the_empty_result c start howMany :
  start < 0 ∨ TopDocsCollector.topDocsSize c ≤ start ∨ howMany ≤ 0 →
  TopDocsCollector.TopDocsRange c start howMany = Ok (mkTopDocs 0 [] nan, c).
Proof. apply TopDocsRange_bad_range. Qed.

Lemma C6_witness :
  (1 < 0 ∨ TopDocsCollector.topDocsSize fiveSeen ≤ 1 ∨ 1 ≤ 0) ∧
  TopDocsCollector.TopDocsRange fiveSeen 1 1 = Ok (mkTopDocs 0 [] nan, fiveSeen).
Proof.
  assert (1 < 0 ∨ TopDocsCollector.topDocsSize fiveSeen ≤ 1 ∨ 1 ≤ 0) as H
    by (right; left; vm_compute; discriminate).
  split; [exact H|].
  exact (C6_bad_range_gives_the_empty_result fiveSeen 1 1 H).
Defined.

(** C7.  Specification: the placeholders lose against every real hit, so
    the first K collect calls are all accepted, each evicting a
    placeholder.  On the code a collector of capacity 2 is never built.
    And on a queue of two pointers to placeholders the first hit (5.0, 0)
    ends up in both slots, after which the second call, (1.0, 1), is
    compared with it through the stale handle and rejected although it is
    one of the first two; a first hit scoring -2^128, below the
    placeholder's [-math.MaxFloat32], is rejected as well. *)
Theorem C7_second_of_the_first_hits_is_rejected :
  search 2 0 [(5%float, 0); (1%float, 1)] = Panic TypeAssertion ∧
  ∃ c c1 c2 c3,
    newTocScoreDocCollector_from (sentinelStore 2) (pointerDocs 2) = Ok c ∧
    entries c = [Some sentinel; Some sentinel] ∧
    Collect c 5 0 = Ok c1 ∧
    entries c1 = [Some (mkScoreDoc 5 0); Some (mkScoreDoc 5 0)] ∧
    Collect c1 1 1 = Ok c2 ∧
    entries c2 = [Some (mkScoreDoc 5 0); Some (mkScoreDoc 5 0)] ∧
    Collect c (-0x1p+128) 0 = Ok c3 ∧
    entries c3 = [Some sentinel; Some sentinel].
Proof.
  split; [by vm_compute|].
  eexists _, _, _, _.
  do 7 (split; [vm_compute; reflexivity|]).
  vm_compute; reflexivity.
Qed.

(** C8.  Specification: a capacity K <= 0 is refused at once with an
    explicit caller error.  On the code the guard reads [numHits < 0] under
    a message that says the capacity must be > 0: a negative capacity gets
    the message, but 0 passes the guard and construction dies later, of an
    index out of range inside [heap.Pop] when the documents are scored in
    order, of the unrelated [not supported yet] otherwise. *)
Theorem C8_zero_capacity_passes_the_guard (after : ScoreDoc) :
  NewTopScoreDocCollector 0 after true = Panic IndexOutOfRange ∧
  NewTopScoreDocCollector 0 after false = Panic (Message "not supported yet") ∧
  NewTopScoreDocCollector (-1) after true
    = Panic (Message "numHits must be > 0; please use TotalHitCountCollector if you just need the total hit count").
Proof. repeat split; by vm_compute. Qed.

(** C9.  On a queue of live pointers, for every valid start
    ([0 <= start < effectiveSize()]) and every [count > 0] with
    [start + count > effectiveSize()], [extract(start, count)] returns and
    its result has exactly [effectiveSize() - start] hits. *)
Theorem C9_count_is_clamped c start howMany :
  live (objs c) (pq c) →
  0 ≤ start < TopDocsCollector.topDocsSize c → 0 < howMany →
  TopDocsCollector.topDocsSize c < start + howMany →
  ∃ td c',
    TopDocsCollector.TopDocsRange c start howMany = Ok (td, c') ∧
    Z.of_nat (length (scoreDocs td)) = TopDocsCollector.topDocsSize c - start.
Proof.
  intros Hl Hs Hh Hover.
  destruct (TopDocsRange_valid c start howMany Hl Hs Hh)
    as (td & c' & Hr & Hlen & _).
  exists td, c'. split; [done|]. lia.
Qed.

Lemma C9_witness :
  live (objs twoHits) (pq twoHits) ∧
  0 ≤ 1 < TopDocsCollector.topDocsSize twoHits ∧ 0 < 5 ∧
  TopDocsCollector.topDocsSize twoHits < 1 + 5 ∧
  ∃ td c',
    TopDocsCollector.TopDocsRange twoHits 1 5 = Ok (td, c') ∧
    Z.of_nat (length (scoreDocs td)) = TopDocsCollector.topDocsSize twoHits - 1.
Proof.
  assert (0 ≤ 1 < TopDocsCollector.topDocsSize twoHits) as Hs
    by (vm_compute; split; [discriminate | reflexivity]).
  assert (0 < 5) as Hh by reflexivity.
  assert (TopDocsCollector.topDocsSize twoHits < 1 + 5) as Hover
    by reflexivity.
  split; [exact live_twoHits|]. split; [exact Hs|]. split; [exact Hh|].
  split; [exact Hover|].
  exact (C9_count_is_clamped twoHits 1 5 live_twoHits Hs Hh Hover).
Defined.

(** C10.  In every state that has counted no hit ([TotalHits = 0]),
    [TopDocs()] returns without a panic: [effectiveSize()] is 0, the call
    takes the bad-range branch and the result has no hit, the count 0 and
    the maximum score NaN; the collector is left as it was. *)
Theorem C10_nothing_collected c :
  TotalHits c = 0 →
  TopDocsCollector.topDocsSize c = 0 ∧
  TopDocsCollector.TopDocs c = Ok (mkTopDocs 0 [] nan, c).
Proof.
  intros H0.
  assert (TopDocsCollector.topDocsSize c = 0) as Hsz.
  { unfold TopDocsCollector.topDocsSize, PriorityQueue.Len. rewrite H0.
    destruct (Z.leb_spec (Z.of_nat (length (pq c))) 0); lia. }
  split; [done|]. unfold TopDocsCollector.TopDocs.
  apply TopDocsRange_bad_range. lia.
Qed.

Lemma C10_witness :
  TotalHits nothingSeen = 0 ∧
  TopDocsCollector.topDocsSize nothingSeen = 0 ∧
  TopDocsCollector.TopDocs nothingSeen = Ok (mkTopDocs 0 [] nan, nothingSeen).
Proof.
  split; [reflexivity|].
  exact (C10_nothing_collected nothingSeen eq_refl).
Defined.

(** * Further properties of the code

    What the source shows beyond the claims of the specification: the
    behaviour of the constructor, of the comparison and of the slice
    methods, what a run of [Collect] calls leaves in place, the
    replace-min step where the handle does designate the root, and what
    an extraction returns and consumes. *)

(** ** The fixtures *)

Lemma live_staleHandle : live (objs staleHandle) (pq staleHandle).
Proof.
  unfold live. cbn.
  repeat (apply Forall_cons; split;
          [eexists _, _; split; [reflexivity | vm_compute; reflexivity]|]).
  apply Forall_nil_2.
Qed.

Lemma live_nothingSeen : live (objs nothingSeen) (pq nothingSeen).
Proof.
  unfold live. cbn.
  repeat (apply Forall_cons; split;
          [eexists _, _; split; [reflexivity | vm_compute; reflexivity]|]).
  apply Forall_nil_2.
Qed.

(** [twoHits] is a heap of distinct pointers without NaN scores. *)
Lemma orderedStore_twoHits : orderedStore (objs twoHits).
Proof.
  intros p d H. cbn [objs twoHits] in H.
  apply lookup_insert_Some in H as [[_ <-]|[_ H]]; [reflexivity|].
  apply lookup_singleton_Some in H as [_ <-]. reflexivity.
Qed.

Lemma heapOK_twoHits : heapOK (objs twoHits) (pq twoHits) (length (pq twoHits)).
Proof.
  intros p c Hc Hlt. cbn in Hlt. unfold child in Hc.
  assert (c = 1%nat ∧ p = 0%nat) as [-> ->] by lia. reflexivity.
Qed.

Lemma NoDup_twoHits : NoDup (pq twoHits).
Proof.
  cbn. apply NoDup_cons. split.
  - intros H. apply list_elem_of_singleton in H. discriminate.
  - apply NoDup_singleton.
Qed.

(** ** Construction *)


(** ** The order of the queue *)

Lemma SFleb_nan (a b : spec_float) :
  SFeqb a a = false → SFleb a b = false ∧ SFleb b a = false.
Proof.
  unfold SFeqb, SFleb, SFcompare.
  destruct a as [[]|[]| |[] ma ea]; try discriminate;
    try (change (Pos.compare_cont Eq) with Pos.compare;
         rewrite Z.compare_refl, ?Pos.compare_refl, ?Pos.compare_cont_refl;
         cbn; discriminate).
  intros _. by destruct b as [[]|[]| |[] mb eb].
Qed.

Lemma score_leb_nan (x y : float) :
  PrimFloat.eqb x x = false →
  PrimFloat.leb x y = false ∧ PrimFloat.leb y x = false.
Proof.
  rewrite FloatAxioms.eqb_spec, !FloatAxioms.leb_spec. apply SFleb_nan.
Qed.

(** X2.  On hits whose scores are not NaN the comparison installed as
    [pq.less] is a strict order that leaves no two different hits
    unordered: it is irreflexive, asymmetric and transitive, and two hits
    neither of which is less than the other have equal scores and the
    same document id. *)
Theorem less_is_a_strict_total_order (a b c : ScoreDoc) :
  ordered a → ordered b → ordered c →
  lessHit a a = false ∧
  (lessHit a b = true → lessHit b a = false) ∧
  (lessHit a b = true → lessHit b c = true → lessHit a c = true) ∧
  (lessHit a b = false → lessHit b a = false →
   PrimFloat.eqb (score a) (score b) = true ∧ doc a = doc b).
Proof.
  intros Ha Hb Hc. split; [apply lessHit_irrefl|].
  split; [by apply lessHit_asym|]. split.
  - intros Hab Hbc. destruct (lessHit a c) eqn:Hac; [done|]. exfalso.
    pose proof (lessHit_asym b c Hb Hc Hbc) as Hcb.
    pose proof (notLess_trans a c b Ha Hc Hb Hac Hcb). congruence.
  - rewrite (lessHit_ordered a b Ha Hb), (lessHit_ordered b a Hb Ha),
      score_eqb_leb.
    destruct (score_leb_total _ _ Ha Hb);
      destruct (PrimFloat.leb (score a) (score b)),
               (PrimFloat.leb (score b) (score a)); cbn; try done; lia.
Qed.

Lemma less_is_a_strict_total_order_witness :
  ordered (mkScoreDoc 1 7) ∧ ordered (mkScoreDoc 1 3) ∧ ordered (mkScoreDoc 2 9) ∧
  lessHit (mkScoreDoc 1 7) (mkScoreDoc 1 3) = true ∧
  lessHit (mkScoreDoc 1 3) (mkScoreDoc 2 9) = true ∧
  lessHit (mkScoreDoc 1 7) (mkScoreDoc 2 9) = true.
Proof.
  assert (ordered (mkScoreDoc 1 7)) as Ha by reflexivity.
  assert (ordered (mkScoreDoc 1 3)) as Hb by reflexivity.
  assert (ordered (mkScoreDoc 2 9)) as Hc by reflexivity.
  split; [exact Ha|]. split; [exact Hb|]. split; [exact Hc|].
  split; [reflexivity|]. split; [reflexivity|].
  exact (proj1 (proj2 (proj2
           (less_is_a_strict_total_order _ _ _ Ha Hb Hc))) eq_refl eq_refl).
Defined.

(** ** [PriorityQueue] as a slice *)

(** X3.  [Push] and [Pop] work at the end of the slice and undo each
    other: [Pop] returns [x] and leaves [items] exactly when the queue
    was [items] with [x] pushed, and it panics with an index out of range
    exactly on the empty queue. *)
Theorem Pop_undoes_Push (items : list any) :
  (∀ x items', PriorityQueue.Pop items = Ok (x, items')
               ↔ items = PriorityQueue.Push items' x) ∧
  (PriorityQueue.Pop items = Panic IndexOutOfRange ↔ items = []).
Proof.
  unfold PriorityQueue.Pop, PriorityQueue.Push, PriorityQueue.Len.
  destruct (decide (items = [])) as [->|Hne].
  { split; [|done]. intros x items'. cbn. split; [done|].
    intros H. by destruct items'. }
  destruct (exists_last Hne) as (front & last & ->).
  rewrite length_app. cbn [length].
  replace (Z.of_nat (length front + 1) - 1) with (Z.of_nat (length front)) by lia.
  rewrite (index_nat _ (length front) last)
    by (rewrite lookup_app_r, Nat.sub_diag by lia; done).
  rewrite bind_Ok, Nat2Z.id, take_app_length. split.
  - intros x items'. split.
    + by intros [= -> ->].
    + intros H. apply app_inj_tail in H as [-> ->]. done.
  - split; [done|]. intros H. by destruct front.
Qed.

(** X4.  [Swap] exchanges two slots in range, so that swapping twice
    restores the queue and the content is only permuted; with an index out
    of range it panics. *)
Theorem Swap_exchanges_two_slots (items : list any) (i j : Z) :
  if decide (0 ≤ i < PriorityQueue.Len items ∧ 0 ≤ j < PriorityQueue.Len items)
  then ∃ items',
         PriorityQueue.Swap items i j = Ok items' ∧
         index items' i = index items j ∧
         index items' j = index items i ∧
         (∀ k, k ≠ i → k ≠ j → index items' k = index items k) ∧
         items' ≡ₚ items ∧
         PriorityQueue.Swap items' i j = Ok items
  else PriorityQueue.Swap items i j = Panic IndexOutOfRange.
Proof.
  unfold PriorityQueue.Len. case_decide as Hr.
  - destruct Hr as [Hi Hj].
    replace i with (Z.of_nat (Z.to_nat i)) by lia.
    replace j with (Z.of_nat (Z.to_nat j)) by lia.
    set (a := Z.to_nat i). set (b := Z.to_nat j).
    assert (a < length items)%nat as Ha by lia.
    assert (b < length items)%nat as Hb by lia.
    clearbody a b. clear Hi Hj.
    rewrite Swap_swapped by done. exists (swapped items a b).
    split; [done|].
    assert (∀ k, index (swapped items a b) (Z.of_nat k)
                 = index items (Z.of_nat (transpose a b k))) as Hidx.
    { intros k. unfold index.
      destruct (Z.ltb_spec (Z.of_nat k) 0); [lia|].
      destruct (Z.ltb_spec (Z.of_nat (transpose a b k)) 0); [lia|].
      by rewrite !Nat2Z.id, lookup_swapped. }
    split; [rewrite Hidx; unfold transpose; by rewrite decide_True|].
    split.
    { rewrite Hidx. unfold transpose. case_decide; [by subst|].
      by rewrite decide_True. }
    split.
    { intros k Hka Hkb. destruct (Z.ltb_spec k 0) as [Hneg|Hk].
      - unfold index. by destruct (Z.ltb_spec k 0); [|lia].
      - replace k with (Z.of_nat (Z.to_nat k)) in * by lia.
        rewrite Hidx. unfold transpose.
        rewrite !decide_False by lia. done. }
    split; [apply swapped_Permutation|].
    rewrite Swap_swapped by (by rewrite length_swapped). f_equal.
    apply list_eq. intros k.
    rewrite !lookup_swapped by (by rewrite ?length_swapped).
    f_equal. unfold transpose. repeat case_decide; congruence.
  - unfold PriorityQueue.Swap.
    destruct (decide (0 ≤ j < Z.of_nat (length items))) as [Hj|Hj].
    + destruct (index_in_range items j Hj) as (x & -> & _). rewrite bind_Ok.
      rewrite (index_out_of_range items i) by lia. done.
    + rewrite (index_out_of_range items j) by lia. done.
Qed.


(** ** The queue under [container/heap] *)

(** X5.  The queue with its comparison is a priority queue for
    [container/heap]: pushing a slot into a heap of live pointers and
    popping gives back a least slot among the old ones and the new one,
    and leaves a heap of exactly the others. *)
Theorem Push_then_Pop_returns_a_least_slot
        (m : gmap addr ScoreDoc) (items : list any) (x : any) :
  orderedStore m → live m (x :: items) → heapOK m items (length items) →
  ∃ items1 y items2,
    heap.Push m items x = Ok items1 ∧
    heap.Pop m items1 = Ok (y, items2) ∧
    y :: items2 ≡ₚ x :: items ∧
    Forall (λ z, lessAny m z y = false) (x :: items) ∧
    live m items2 ∧ heapOK m items2 (length items2).
Proof.
  intros Hord Hl Hh.
  destruct (heap_Push_heap m Hord items x Hl Hh)
    as (items1 & HPush & Hp1 & Hl1 & Hh1).
  destruct (heap_Pop_heap m Hord items1 Hl1 Hh1)
    as (y & items2 & HPop & _ & Hp2 & Hl2 & Hh2 & Hmin).
  { rewrite Hp1. cbn. lia. }
  exists items1, y, items2. split; [done|]. split; [done|].
  split; [by rewrite Hp2|]. split; [by rewrite <- Hp1|]. by split.
Qed.

Lemma Push_then_Pop_returns_a_least_slot_witness :
  orderedStore (objs twoHits) ∧
  live (objs twoHits) (AnyPtr 0%nat :: [AnyPtr 1%nat]) ∧
  heapOK (objs twoHits) [AnyPtr 1%nat] (length [AnyPtr 1%nat]) ∧
  ∃ items1 y items2,
    heap.Push (objs twoHits) [AnyPtr 1%nat] (AnyPtr 0%nat) = Ok items1 ∧
    heap.Pop (objs twoHits) items1 = Ok (y, items2) ∧
    y :: items2 ≡ₚ AnyPtr 0%nat :: [AnyPtr 1%nat] ∧
    Forall (λ z, lessAny (objs twoHits) z y = false)
           (AnyPtr 0%nat :: [AnyPtr 1%nat]) ∧
    live (objs twoHits) items2 ∧
    heapOK (objs twoHits) items2 (length items2).
Proof.
  assert (heapOK (objs twoHits) [AnyPtr 1%nat] (length [AnyPtr 1%nat])) as Hh.
  { intros p c Hc Hlt. cbn in Hlt. unfold child in Hc. lia. }
  split; [exact orderedStore_twoHits|]. split; [exact live_twoHits|].
  split; [exact Hh|].
  exact (Push_then_Pop_returns_a_least_slot (objs twoHits) [AnyPtr 1%nat]
           (AnyPtr 0%nat) orderedStore_twoHits live_twoHits Hh).
Defined.



(** ** Runs of [Collect] *)

Lemma wrap_add_l (a b : Z) : wrap (wrap a + b) = wrap (a + b).
Proof.
  unfold wrap.
  replace ((a + 2 ^ 63) `mod` 2 ^ 64 - 2 ^ 63 + b + 2 ^ 63)
    with ((a + 2 ^ 63) `mod` 2 ^ 64 + b) by lia.
  rewrite Zplus_mod_idemp_l. do 2 f_equal. lia.
Qed.

Lemma handle_in_queue_Len c :
  AnyPtr (pqTop c) ∈ pq c → 0 < PriorityQueue.Len (pq c).
Proof.
  intros Hin. unfold PriorityQueue.Len.
  apply list_elem_of_lookup in Hin as [k Hk].
  apply lookup_lt_Some in Hk. lia.
Qed.

(** One call, with everything it leaves in place. *)
Lemma Collect_step c scr d :
  live (objs c) (pq c) → AnyPtr (pqTop c) ∈ pq c →
  ∃ c' top,
    Collect c scr d = Ok c' ∧ objs c !! pqTop c = Some top ∧
    live (objs c') (pq c') ∧ AnyPtr (pqTop c') ∈ pq c' ∧
    pqTop c' = pqTop c ∧ docBase c' = docBase c ∧ hook c' = hook c ∧
    TotalHits c' = wrap (TotalHits c + 1) ∧
    length (pq c') = length (pq c) ∧
    (∀ x, x ∈ pq c' → x ∈ pq c) ∧
    objs c' = (if PrimFloat.leb scr (score top) then objs c
               else <[pqTop c := hit c scr d]> (objs c)).
Proof.
  intros Hl Hin. destruct (handle_entry c Hl Hin) as (top & Ht & _).
  destruct (Collect_total c scr d Hl Hin)
    as (c' & Hc & Hl' & Hin' & Hlen & Hn & Hp & Hb & Hh).
  exists c', top. repeat (split; [done|]).
  destruct (PrimFloat.leb scr (score top)) eqn:Hle.
  - rewrite (Collect_reject c scr d top Ht Hle) in Hc. injection Hc as <-.
    by split.
  - destruct (Collect_accept c scr d top Hl (handle_in_queue_Len c Hin) Ht Hle)
      as (x & items1 & items2 & Hc2 & Hx & Hp1 & Hp2).
    rewrite Hc2 in Hc. injection Hc as <-. cbn. split; [|done].
    intros y Hy. rewrite Hp2 in Hy. apply elem_of_cons in Hy as [->|Hy]; [done|].
    rewrite <- Hp1. by apply list_elem_of_further.
Qed.

Lemma wrap_small (z : Z) : - 2 ^ 63 ≤ z ≤ MaxInt → wrap z = z.
Proof. unfold wrap, MaxInt. intros H. rewrite Z.mod_small; lia. Qed.

Lemma wrap_range (z : Z) : - 2 ^ 63 ≤ wrap z ≤ MaxInt.
Proof.
  unfold wrap, MaxInt.
  pose proof (Z.mod_pos_bound (z + 2 ^ 63) (2 ^ 64) ltac:(lia)). lia.
Qed.

(** What a run leaves in place, whatever the counter holds. *)
Lemma collectAll_frame (hits : list (float * Z)) :
  ∀ c, live (objs c) (pq c) → AnyPtr (pqTop c) ∈ pq c →
  ∃ c',
    collectAll c hits = Ok c' ∧
    pqTop c' = pqTop c ∧ hook c' = hook c ∧ docBase c' = docBase c ∧
    live (objs c') (pq c') ∧ AnyPtr (pqTop c') ∈ pq c'.
Proof.
  induction hits as [|[scr d] hits IH]; intros c Hl Hin.
  - by exists c.
  - cbn [collectAll].
    destruct (Collect_step c scr d Hl Hin)
      as (c1 & top & -> & _ & Hl1 & Hin1 & Hp1 & Hb1 & Hh1 & _).
    rewrite bind_Ok.
    destruct (IH c1 Hl1 Hin1) as (c' & -> & Hp & Hh & Hb & Hl' & Hin').
    exists c'. split; [done|]. split; [congruence|]. split; [congruence|].
    split; [congruence|]. by split.
Qed.

(** X6.  A run of [Collect] calls never allocates and writes through the
    handle only: it returns, the queue keeps its length and gains no slot
    it did not hold before, every object but the one behind [pqTop] is
    left as it was, the handle itself never moves, and the counter has
    advanced by the number of calls (modulo 2^64). *)
Theorem collectAll_writes_through_the_handle_only (hits : list (float * Z)) :
  ∀ c, live (objs c) (pq c) → AnyPtr (pqTop c) ∈ pq c →
  - 2 ^ 63 ≤ TotalHits c ≤ MaxInt →
  ∃ c',
    collectAll c hits = Ok c' ∧
    pqTop c' = pqTop c ∧
    length (pq c') = length (pq c) ∧
    (∀ x, x ∈ pq c' → x ∈ pq c) ∧
    (∀ p, p ≠ pqTop c → objs c' !! p = objs c !! p) ∧
    TotalHits c' = wrap (TotalHits c + Z.of_nat (length hits)).
Proof.
  induction hits as [|[scr d] hits IH]; intros c Hl Hin Hint.
  - exists c. cbn [collectAll length]. repeat (split; [done|]).
    by rewrite Z.add_0_r, wrap_small.
  - cbn [collectAll].
    destruct (Collect_step c scr d Hl Hin)
      as (c1 & top & -> & Ht & Hl1 & Hin1 & Hp1 & _ & _ & Hn1 & Hlen1 & Hsub1 & Hobjs1).
    rewrite bind_Ok.
    destruct (IH c1 Hl1 Hin1) as (c' & -> & Hp & Hlen & Hsub & Hfr & Hn).
    { rewrite Hn1. apply wrap_range. }
    exists c'. split; [done|]. split; [congruence|]. split; [congruence|].
    split; [auto|]. split.
    + intros p Hne. rewrite Hfr by congruence. rewrite Hobjs1.
      destruct (PrimFloat.leb scr (score top)); [done|].
      by apply lookup_insert_ne.
    + rewrite Hn, Hn1, wrap_add_l. f_equal. cbn [length]. lia.
Qed.

Lemma collectAll_writes_through_the_handle_only_witness :
  live (objs twoHits) (pq twoHits) ∧ AnyPtr (pqTop twoHits) ∈ pq twoHits ∧
  - 2 ^ 63 ≤ TotalHits twoHits ≤ MaxInt ∧
  ∃ c',
    collectAll twoHits [(5%float, 2); (7%float, 3); (0.5%float, 4)] = Ok c' ∧
    pqTop c' = 0%nat ∧
    objs c' !! 1%nat = Some (mkScoreDoc 2 1) ∧
    TotalHits c' = 5.
Proof.
  assert (- 2 ^ 63 ≤ TotalHits twoHits ≤ MaxInt) as Hint by (unfold MaxInt; cbn; lia).
  split; [exact live_twoHits|]. split; [exact handle_twoHits|].
  split; [exact Hint|].
  destruct (collectAll_writes_through_the_handle_only
              [(5%float, 2); (7%float, 3); (0.5%float, 4)] twoHits
              live_twoHits handle_twoHits Hint)
    as (c' & Hc & Hp & _ & _ & Hfr & Hn).
  exists c'. split; [exact Hc|]. split; [exact Hp|].
  split; [exact (Hfr 1%nat ltac:(discriminate))|]. exact Hn.
Defined.

(** With scores that are not NaN, the object behind the handle ends a run
    holding the greatest score it was offered, and a hit that only ties
    never replaces what the handle holds. *)
Lemma collectAll_best (hits : list (float * Z)) :
  ∀ c top,
  live (objs c) (pq c) → AnyPtr (pqTop c) ∈ pq c →
  objs c !! pqTop c = Some top → ordered top →
  Forall (λ h, PrimFloat.eqb h.1 h.1 = true) hits →
  ∃ c' e,
    collectAll c hits = Ok c' ∧
    objs c' !! pqTop c = Some e ∧ ordered e ∧
    PrimFloat.leb (score top) (score e) = true ∧
    (∀ h, h ∈ hits → PrimFloat.leb h.1 (score e) = true) ∧
    (e = top ∨
     PrimFloat.ltb (score top) (score e) = true ∧
     ∃ h, h ∈ hits ∧ e = hit c h.1 h.2).
Proof.
  induction hits as [|[scr d] hits IH]; intros c top Hl Hin Ht Ho Hs.
  - exists c, top. cbn [collectAll]. split; [done|]. split; [done|].
    split; [done|]. split.
    { pose proof (score_eqb_leb (score top) (score top)) as E.
      rewrite Ho in E. symmetry in E. by apply andb_true_iff in E as [E _]. }
    split; [|by left]. intros h Hh. by apply elem_of_nil in Hh.
  - cbn [collectAll]. apply Forall_cons in Hs as [Hscr Hs]. cbn in Hscr.
    destruct (Collect_step c scr d Hl Hin)
      as (c1 & top' & -> & Ht' & Hl1 & Hin1 & Hp1 & Hb1 & _ & _ & _ & _ & Hobjs1).
    rewrite bind_Ok. rewrite Ht in Ht'. injection Ht' as <-.
    assert (PrimFloat.leb scr scr = true) as Hrefl.
    { pose proof (score_eqb_leb scr scr) as E.
      rewrite Hscr in E. symmetry in E. by apply andb_true_iff in E as [E _]. }
    (* the object behind the handle after the first call *)
    assert (∃ e1, objs c1 !! pqTop c1 = Some e1 ∧ ordered e1 ∧
                  PrimFloat.leb (score top) (score e1) = true ∧
                  PrimFloat.leb scr (score e1) = true ∧
                  (e1 = top ∨
                   PrimFloat.ltb (score top) (score e1) = true ∧
                   e1 = hit c scr d)) as (e1 & He1 & Ho1 & Hle1 & Hs1 & Hor1).
    { rewrite Hobjs1, Hp1.
      destruct (PrimFloat.leb scr (score top)) eqn:Hle.
      - exists top. split; [done|]. split; [done|]. split; [|by auto].
        pose proof (score_eqb_leb (score top) (score top)) as E.
        rewrite Ho in E. symmetry in E. by apply andb_true_iff in E as [E _].
      - exists (hit c scr d). rewrite lookup_insert_eq. split; [done|].
        split; [exact Hscr|]. cbn [hit score].
        destruct (score_leb_total scr (score top) Hscr Ho) as [E|E];
          [congruence|].
        split; [done|]. split; [done|]. right. split; [|done].
        rewrite (score_ltb_leb _ _ Ho Hscr). by rewrite Hle. }
    destruct (IH c1 e1 Hl1 Hin1 He1 Ho1 Hs)
      as (c' & e & -> & He & Hoe & Hle & Hall & Hor).
    rewrite Hp1 in He.
    exists c', e. split; [done|]. split; [done|]. split; [done|].
    assert (PrimFloat.leb (score top) (score e) = true) as Htop
      by (eapply score_leb_trans; eassumption).
    split; [done|]. split.
    { intros h Hh. apply elem_of_cons in Hh as [->|Hh]; [|by apply Hall].
      cbn. eapply score_leb_trans; eassumption. }
    assert (hit c1 = hit c) as Hhit
      by (unfold hit; by rewrite Hb1).
    destruct Hor as [->|[Hlt (h & Hh & ->)]].
    + destruct Hor1 as [->|[Hlt ->]]; [by left|].
      right. split; [done|]. exists (scr, d). split; [|done].
      apply list_elem_of_here.
    + right. split.
      * rewrite (score_ltb_leb _ _ Ho Hoe).
        destruct (PrimFloat.leb (score (hit c1 h.1 h.2)) (score top)) eqn:E;
          [|done].
        pose proof (score_leb_trans _ _ _ E Hle1) as E1.
        by rewrite (score_ltb_not_leb _ _ Hlt) in E1.
      * exists h. split; [by apply list_elem_of_further|]. by rewrite Hhit.
Qed.

(** X7.  A segment's run: after [SetNextReader] with base [base] and any
    sequence of [Collect] calls whose scores are not NaN, the object behind
    the handle holds the greatest score it was offered.  No submitted
    score and not the score it started with is above it, and it is either
    the object the run started with or a submitted hit, its id shifted by
    [base], whose score is strictly above the starting one: a hit that
    only ties never replaces what the handle holds. *)
Theorem run_leaves_the_best_behind_the_handle
        (c : Collector) (base : Z) (hits : list (float * Z)) (top : ScoreDoc) :
  live (objs c) (pq c) → AnyPtr (pqTop c) ∈ pq c →
  objs c !! pqTop c = Some top → ordered top →
  Forall (λ h, PrimFloat.eqb h.1 h.1 = true) hits →
  ∃ c' e,
    collectAll (SetNextReader c base) hits = Ok c' ∧
    pqTop c' = pqTop c ∧
    objs c' !! pqTop c = Some e ∧
    PrimFloat.leb (score top) (score e) = true ∧
    (∀ h, h ∈ hits → PrimFloat.leb h.1 (score e) = true) ∧
    (e = top ∨
     PrimFloat.ltb (score top) (score e) = true ∧
     ∃ h, h ∈ hits ∧ e = mkScoreDoc h.1 (wrap (h.2 + base))).
Proof.
  intros Hl Hin Ht Ho Hs.
  destruct (collectAll_best hits (SetNextReader c base) top Hl Hin Ht Ho Hs)
    as (c' & e & Hc & He & _ & Hle & Hall & Hor).
  destruct (collectAll_frame hits (SetNextReader c base) Hl Hin)
    as (c2 & Hc2 & Hp & _).
  rewrite Hc in Hc2. injection Hc2 as <-.
  exists c', e. split; [done|]. split; [exact Hp|]. split; [exact He|].
  split; [done|]. split; [done|]. exact Hor.
Qed.

Lemma run_leaves_the_best_behind_the_handle_witness :
  live (objs twoHits) (pq twoHits) ∧ AnyPtr (pqTop twoHits) ∈ pq twoHits ∧
  objs twoHits !! pqTop twoHits = Some (mkScoreDoc 1 0) ∧
  ordered (mkScoreDoc 1 0) ∧
  Forall (λ h : float * Z, PrimFloat.eqb h.1 h.1 = true)
         [(5%float, 2); (5%float, 3); (0.5%float, 4)] ∧
  ∃ c' e,
    collectAll (SetNextReader twoHits 100)
               [(5%float, 2); (5%float, 3); (0.5%float, 4)] = Ok c' ∧
    objs c' !! pqTop twoHits = Some e ∧
    PrimFloat.leb 5 (score e) = true.
Proof.
  assert (objs twoHits !! pqTop twoHits = Some (mkScoreDoc 1 0)) as Ht
    by reflexivity.
  assert (ordered (mkScoreDoc 1 0)) as Ho by reflexivity.
  assert (Forall (λ h : float * Z, PrimFloat.eqb h.1 h.1 = true)
                 [(5%float, 2); (5%float, 3); (0.5%float, 4)]) as Hs
    by (repeat constructor).
  split; [exact live_twoHits|]. split; [exact handle_twoHits|].
  split; [exact Ht|]. split; [exact Ho|]. split; [exact Hs|].
  destruct (run_leaves_the_best_behind_the_handle twoHits 100 _ _
              live_twoHits handle_twoHits Ht Ho Hs)
    as (c' & e & Hc & _ & He & _ & Hall & _).
  exists c', e. split; [exact Hc|]. split; [exact He|].
  exact (Hall (5%float, 2) (list_elem_of_here _ _)).
Defined.

(** X8.  A NaN is never rejected: when the submitted score or the score
    behind the handle is NaN, the test [score <= c.pqTop.score] fails and
    the hit is written through the handle, NaN included. *)
Theorem Collect_accepts_what_NaN_compares c scr d top :
  live (objs c) (pq c) → AnyPtr (pqTop c) ∈ pq c →
  objs c !! pqTop c = Some top →
  PrimFloat.eqb scr scr = false ∨
  PrimFloat.eqb (score top) (score top) = false →
  ∃ c',
    Collect c scr d = Ok c' ∧
    objs c' !! pqTop c' = Some (mkScoreDoc scr (wrap (d + docBase c))).
Proof.
  intros Hl Hin Ht Hnan.
  assert (PrimFloat.leb scr (score top) = false) as Hle.
  { destruct Hnan as [H|H].
    - apply (score_leb_nan scr (score top) H).
    - apply (score_leb_nan (score top) scr H). }
  destruct (Collect_accept c scr d top Hl (handle_in_queue_Len c Hin) Ht Hle)
    as (x & items1 & items2 & -> & _).
  eexists. split; [done|]. cbn. apply lookup_insert_eq.
Qed.

Lemma Collect_accepts_what_NaN_compares_witness :
  live (objs twoHits) (pq twoHits) ∧ AnyPtr (pqTop twoHits) ∈ pq twoHits ∧
  objs twoHits !! pqTop twoHits = Some (mkScoreDoc 1 0) ∧
  (PrimFloat.eqb nan nan = false ∨ PrimFloat.eqb 1 1 = false) ∧
  ∃ c',
    Collect twoHits nan 2 = Ok c' ∧
    objs c' !! pqTop c' = Some (mkScoreDoc nan (wrap (2 + docBase twoHits))).
Proof.
  assert (objs twoHits !! pqTop twoHits = Some (mkScoreDoc 1 0)) as Ht
    by reflexivity.
  assert (PrimFloat.eqb nan nan = false ∨
          PrimFloat.eqb (score (mkScoreDoc 1 0)) (score (mkScoreDoc 1 0)) = false)
    as Hnan by (left; reflexivity).
  split; [exact live_twoHits|]. split; [exact handle_twoHits|].
  split; [exact Ht|]. split; [exact Hnan|].
  exact (Collect_accepts_what_NaN_compares twoHits nan 2 _
           live_twoHits handle_twoHits Ht Hnan).
Defined.

(** X9.  Against a placeholder behind the handle, a hit is accepted
    exactly when its score is not at most [-math.MaxFloat32], the score
    line 127 gives the placeholders; it then takes the placeholder's place
    in the store.  A score at or below that bound, finite or not, leaves
    the queue and the store as they were. *)
Lemma Collect_against_placeholder c scr d :
  live (objs c) (pq c) → AnyPtr (pqTop c) ∈ pq c →
  objs c !! pqTop c = Some sentinel →
  ∃ c',
    Collect c scr d = Ok c' ∧
    objs c' = (if PrimFloat.leb scr (PrimFloat.opp MaxFloat32)
               then objs c
               else <[pqTop c := hit c scr d]> (objs c)) ∧
    (PrimFloat.leb scr (PrimFloat.opp MaxFloat32) = true → pq c' = pq c).
Proof.
  intros Hl Hin Hs.
  destruct (PrimFloat.leb scr (PrimFloat.opp MaxFloat32)) eqn:Hle.
  - rewrite (Collect_reject c scr d sentinel Hs Hle). by eexists.
  - destruct (Collect_accept c scr d sentinel Hl)
      as (x & items1 & items2 & -> & _); [|done..|].
    { unfold PriorityQueue.Len. apply list_elem_of_lookup in Hin as [k Hk].
      apply lookup_lt_Some in Hk. lia. }
    eexists. split; [done|]. by cbn.
Qed.

Lemma Collect_against_placeholder_witness :
  live (objs nothingSeen) (pq nothingSeen) ∧
  AnyPtr (pqTop nothingSeen) ∈ pq nothingSeen ∧
  objs nothingSeen !! pqTop nothingSeen = Some sentinel ∧
  ∃ c',
    Collect nothingSeen (-0x1p+128) 0 = Ok c' ∧
    objs c' = objs nothingSeen ∧ pq c' = pq nothingSeen.
Proof.
  assert (AnyPtr (pqTop nothingSeen) ∈ pq nothingSeen) as Hin
    by apply list_elem_of_here.
  assert (objs nothingSeen !! pqTop nothingSeen = Some sentinel) as Hs
    by reflexivity.
  split; [exact live_nothingSeen|]. split; [exact Hin|]. split; [exact Hs|].
  destruct (Collect_against_placeholder nothingSeen (-0x1p+128) 0
              live_nothingSeen Hin Hs) as (c' & Hc & Hobjs & Hpq).
  exists c'. split; [exact Hc|]. split; [exact Hobjs|]. exact (Hpq eq_refl).
Defined.

(** X10.  On an empty queue (what an extraction with the score-ordered hook
    leaves behind) [Collect] still counts and rejects a hit that does not
    beat the handle, but an accepted hit panics with an index out of
    range inside [heap.Pop]. *)
Theorem Collect_on_an_empty_queue c scr d top :
  pq c = [] → objs c !! pqTop c = Some top →
  Collect c scr d
  = if PrimFloat.leb scr (score top)
    then Ok (with_TotalHits c (wrap (TotalHits c + 1)))
    else Panic IndexOutOfRange.
Proof.
  intros Hq Ht. unfold Collect, deref. rewrite Ht, bind_Ok.
  destruct (PrimFloat.leb scr (score top)); [done|].
  by rewrite Hq.
Qed.

Lemma Collect_on_an_empty_queue_witness :
  pq (with_pq fiveSeen []) = [] ∧
  objs (with_pq fiveSeen []) !! pqTop (with_pq fiveSeen []) = Some (mkScoreDoc 9 103) ∧
  Collect (with_pq fiveSeen []) 10 104 = Panic IndexOutOfRange ∧
  Collect (with_pq fiveSeen []) 9 104
  = Ok (with_TotalHits (with_pq fiveSeen []) 6).
Proof.
  split; [reflexivity|]. split; [reflexivity|]. split.
  - exact (Collect_on_an_empty_queue (with_pq fiveSeen []) 10 104 _
             eq_refl eq_refl).
  - exact (Collect_on_an_empty_queue (with_pq fiveSeen []) 9 104 _
             eq_refl eq_refl).
Defined.



(** ** The replace-min step *)

Lemma orderedStore_insert (m : gmap addr ScoreDoc) p d :
  orderedStore m → ordered d → orderedStore (<[p := d]> m).
Proof.
  intros Hord Hd q e H.
  apply lookup_insert_Some in H as [[_ <-]|[_ H]]; [done|]. by eapply Hord.
Qed.

(** Writing through a pointer changes the value of the slots that hold it
    and of no other slot. *)
Lemma value_insert_ne (m : gmap addr ScoreDoc) items p d (k k0 : nat) :
  NoDup items → items !! k0 = Some (AnyPtr p) → k ≠ k0 →
  value (<[p := d]> m) items k = value m items k.
Proof.
  intros Hnd Hk0 Hne. unfold value.
  destruct (items !! k) as [[v|q]|] eqn:Hk; [done| |done]. cbn.
  apply lookup_insert_ne. intros <-.
  by pose proof (NoDup_lookup _ _ _ _ Hnd Hk Hk0).
Qed.

(** X11.  The step the handle is kept for.  On a heap of distinct live
    pointers whose root is the object behind [pqTop], an accepted hit
    takes the place of the root entry and of no other, and the queue is
    again a heap of the same pointers. *)
Theorem Collect_at_the_root_keeps_the_heap c scr d top :
  orderedStore (objs c) → live (objs c) (pq c) → NoDup (pq c) →
  heapOK (objs c) (pq c) (length (pq c)) →
  pq c !! 0%nat = Some (AnyPtr (pqTop c)) →
  objs c !! pqTop c = Some top →
  PrimFloat.eqb scr scr = true → PrimFloat.leb scr (score top) = false →
  ∃ c' rest,
    Collect c scr d = Ok c' ∧
    entries c ≡ₚ Some top :: rest ∧
    entries c' ≡ₚ Some (hit c scr d) :: rest ∧
    pq c' ≡ₚ pq c ∧
    orderedStore (objs c') ∧ live (objs c') (pq c') ∧
    heapOK (objs c') (pq c') (length (pq c')).
Proof.
  intros Hord Hl Hnd Hh Hroot Ht Hscr Hle.
  unfold Collect, deref. rewrite Ht, bind_Ok, Hle, insert_insert_eq.
  fold (hit c scr d). set (m2 := <[pqTop c := hit c scr d]> (objs c)).
  assert (orderedStore m2) as Hord2 by by apply orderedStore_insert.
  assert (live m2 (pq c)) as Hl2 by by apply live_store_insert.
  destruct (heap_Pop_repairs m2 Hord2 (pq c) Hl2)
    as (x & items1 & -> & Hx & Hp & Hl1 & Hh1).
  { by apply lookup_lt_Some in Hroot. }
  { intros p k Hp Hk Hkn. unfold lessAt, m2.
    rewrite !(value_insert_ne (objs c) (pq c) (pqTop c) _ _ 0%nat Hnd Hroot)
      by (unfold child in Hk; lia).
    by apply Hh. }
  rewrite bind_Ok. rewrite Hroot in Hx. injection Hx as <-.
  destruct (heap_Push_heap m2 Hord2 items1 (AnyPtr (pqTop c)))
    as (items2 & -> & Hp2 & Hl2' & Hh2); [|done|].
  { eapply live_Permutation; [exact Hp | done]. }
  rewrite bind_Ok.
  eexists _, (entry (objs c) <$> items1). split; [done|].
  cbn [objs pq]. split.
  { unfold entries. rewrite <- Hp. cbn. by rewrite Ht. }
  split.
  { unfold entries. cbn [objs pq]. rewrite Hp2. cbn. unfold m2 at 1.
    rewrite lookup_insert_eq.
    assert (entry m2 <$> items1 = entry (objs c) <$> items1) as ->; [|done].
    apply Forall_fmap_ext, Forall_forall.
    intros y Hy. destruct y as [v|q]; [done|]. cbn.
    apply lookup_insert_ne. intros <-.
    rewrite <- Hp in Hnd. by apply NoDup_cons in Hnd as [Hnin _]. }
  split; [by rewrite Hp2|]. by split.
Qed.

Lemma Collect_at_the_root_keeps_the_heap_witness :
  orderedStore (objs twoHits) ∧ live (objs twoHits) (pq twoHits) ∧
  NoDup (pq twoHits) ∧
  heapOK (objs twoHits) (pq twoHits) (length (pq twoHits)) ∧
  pq twoHits !! 0%nat = Some (AnyPtr (pqTop twoHits)) ∧
  objs twoHits !! pqTop twoHits = Some (mkScoreDoc 1 0) ∧
  PrimFloat.eqb 5 5 = true ∧ PrimFloat.leb 5 1 = false ∧
  ∃ c' rest,
    Collect twoHits 5 2 = Ok c' ∧
    entries twoHits ≡ₚ Some (mkScoreDoc 1 0) :: rest ∧
    entries c' ≡ₚ Some (hit twoHits 5 2) :: rest ∧
    pq c' ≡ₚ pq twoHits ∧
    orderedStore (objs c') ∧ live (objs c') (pq c') ∧
    heapOK (objs c') (pq c') (length (pq c')).
Proof.
  assert (pq twoHits !! 0%nat = Some (AnyPtr (pqTop twoHits))) as Hroot
    by reflexivity.
  assert (objs twoHits !! pqTop twoHits = Some (mkScoreDoc 1 0)) as Ht
    by reflexivity.
  assert (PrimFloat.eqb 5 5 = true) as Hscr by reflexivity.
  assert (PrimFloat.leb 5 (score (mkScoreDoc 1 0)) = false) as Hle
    by reflexivity.
  split; [exact orderedStore_twoHits|]. split; [exact live_twoHits|].
  split; [exact NoDup_twoHits|]. split; [exact heapOK_twoHits|].
  split; [exact Hroot|]. split; [exact Ht|]. split; [exact Hscr|].
  split; [exact Hle|].
  exact (Collect_at_the_root_keeps_the_heap twoHits 5 2 _
           orderedStore_twoHits live_twoHits NoDup_twoHits heapOK_twoHits
           Hroot Ht Hscr Hle).
Defined.

(** X12.  On a heap whose root is the object behind [pqTop], the score
    [Collect] compares a hit with is the worst retained score, so a hit
    that is rejected is beaten or tied by every entry of the queue. *)
Theorem handle_at_the_root_holds_the_worst_score c scr d top :
  orderedStore (objs c) → live (objs c) (pq c) →
  heapOK (objs c) (pq c) (length (pq c)) →
  pq c !! 0%nat = Some (AnyPtr (pqTop c)) →
  objs c !! pqTop c = Some top →
  PrimFloat.leb scr (score top) = true →
  worstScore c (score top) ∧
  Collect c scr d = Ok (with_TotalHits c (wrap (TotalHits c + 1))) ∧
  ∀ e, Some e ∈ entries c → PrimFloat.leb scr (score e) = true.
Proof.
  intros Hord Hl Hh Hroot Ht Hle.
  assert (∀ e, Some e ∈ entries c →
               PrimFloat.leb (score top) (score e) = true) as Hmin.
  { intros e He. unfold entries in He.
    apply list_elem_of_fmap in He as (y & Hy & Hyq).
    apply list_elem_of_lookup in Hyq as [k Hk].
    apply (lessAny_leb (objs c) y (AnyPtr (pqTop c))); [done | done | done |].
    rewrite <- (lessAt_lessAny (objs c) (pq c) k 0 y _ Hk Hroot).
    apply (root_minimal (objs c) Hord (pq c) (length (pq c))); try done.
    by eapply lookup_lt_Some. }
  split; [|split].
  - split; [|done]. exists top. split; [|done].
    unfold entries. rewrite <- Ht.
    change (objs c !! pqTop c) with (entry (objs c) (AnyPtr (pqTop c))).
    apply list_elem_of_fmap_2. by eapply list_elem_of_lookup_2.
  - by apply (Collect_reject c scr d top).
  - intros e He. eapply score_leb_trans; [exact Hle | by apply Hmin].
Qed.

Lemma handle_at_the_root_holds_the_worst_score_witness :
  orderedStore (objs twoHits) ∧ live (objs twoHits) (pq twoHits) ∧
  heapOK (objs twoHits) (pq twoHits) (length (pq twoHits)) ∧
  pq twoHits !! 0%nat = Some (AnyPtr (pqTop twoHits)) ∧
  objs twoHits !! pqTop twoHits = Some (mkScoreDoc 1 0) ∧
  PrimFloat.leb 1 1 = true ∧
  worstScore twoHits 1 ∧
  Collect twoHits 1 2 = Ok (with_TotalHits twoHits 3) ∧
  ∀ e, Some e ∈ entries twoHits → PrimFloat.leb 1 (score e) = true.
Proof.
  assert (pq twoHits !! 0%nat = Some (AnyPtr (pqTop twoHits))) as Hroot
    by reflexivity.
  assert (objs twoHits !! pqTop twoHits = Some (mkScoreDoc 1 0)) as Ht
    by reflexivity.
  assert (PrimFloat.leb 1 (score (mkScoreDoc 1 0)) = true) as Hle
    by reflexivity.
  split; [exact orderedStore_twoHits|]. split; [exact live_twoHits|].
  split; [exact heapOK_twoHits|]. split; [exact Hroot|].
  split; [exact Ht|]. split; [exact Hle|].
  exact (handle_at_the_root_holds_the_worst_score twoHits 1 2 _
           orderedStore_twoHits live_twoHits heapOK_twoHits Hroot Ht Hle).
Defined.



(** X13.  An accepted hit evicts the slot at the root of the queue,
    whatever the handle designates.  When the root is not the object
    behind [pqTop], the root's slot is replaced by a second copy of the
    handle: the root's entry leaves the queue although the hit was written
    over another one. *)
Theorem Collect_off_the_root_duplicates_the_handle c scr d top r :
  live (objs c) (pq c) → AnyPtr (pqTop c) ∈ pq c →
  pq c !! 0%nat = Some (AnyPtr r) → r ≠ pqTop c →
  objs c !! pqTop c = Some top → PrimFloat.leb scr (score top) = false →
  ∃ c' rest,
    Collect c scr d = Ok c' ∧
    pq c ≡ₚ AnyPtr r :: AnyPtr (pqTop c) :: rest ∧
    pq c' ≡ₚ AnyPtr (pqTop c) :: AnyPtr (pqTop c) :: rest ∧
    objs c' = <[pqTop c := hit c scr d]> (objs c).
Proof.
  intros Hl Hin Hroot Hne Ht Hle.
  destruct (Collect_accept c scr d top Hl (handle_in_queue_Len c Hin) Ht Hle)
    as (x & items1 & items2 & -> & Hx & Hp & Hp2).
  rewrite Hroot in Hx. injection Hx as <-.
  assert (AnyPtr (pqTop c) ∈ items1) as Hin1.
  { rewrite <- Hp in Hin. apply elem_of_cons in Hin as [[= E]|Hin]; [|done].
    by destruct Hne. }
  apply elem_of_Permutation in Hin1 as (rest & Hrest).
  eexists _, rest. split; [done|]. cbn [pq objs].
  split; [by rewrite <- Hp, Hrest|]. split; [by rewrite Hp2, Hrest|]. done.
Qed.

Lemma Collect_off_the_root_duplicates_the_handle_witness :
  live (objs staleHandle) (pq staleHandle) ∧
  AnyPtr (pqTop staleHandle) ∈ pq staleHandle ∧
  pq staleHandle !! 0%nat = Some (AnyPtr 1%nat) ∧ 1%nat ≠ pqTop staleHandle ∧
  objs staleHandle !! pqTop staleHandle = Some (mkScoreDoc 5 2) ∧
  PrimFloat.leb 7 5 = false ∧
  ∃ c' rest,
    Collect staleHandle 7 3 = Ok c' ∧
    pq staleHandle ≡ₚ AnyPtr 1%nat :: AnyPtr (pqTop staleHandle) :: rest ∧
    pq c' ≡ₚ AnyPtr (pqTop staleHandle) :: AnyPtr (pqTop staleHandle) :: rest ∧
    objs c' = <[pqTop staleHandle := hit staleHandle 7 3]> (objs staleHandle).
Proof.
  assert (AnyPtr (pqTop staleHandle) ∈ pq staleHandle) as Hin
    by (apply list_elem_of_further, list_elem_of_here).
  assert (pq staleHandle !! 0%nat = Some (AnyPtr 1%nat)) as Hroot by reflexivity.
  assert (1%nat ≠ pqTop staleHandle) as Hne by discriminate.
  assert (objs staleHandle !! pqTop staleHandle = Some (mkScoreDoc 5 2)) as Ht
    by reflexivity.
  assert (PrimFloat.leb 7 (score (mkScoreDoc 5 2)) = false) as Hle
    by reflexivity.
  split; [exact live_staleHandle|]. split; [exact Hin|]. split; [exact Hroot|].
  split; [exact Hne|]. split; [exact Ht|]. split; [exact Hle|].
  exact (Collect_off_the_root_duplicates_the_handle staleHandle 7 3 _ 1%nat
           live_staleHandle Hin Hroot Hne Ht Hle).
Defined.

(** ** Extraction *)

(** The values a queue of live pointers designates. *)
Lemma live_values (m : gmap addr ScoreDoc) (items : list any) :
  live m items → ∃ vs, entry m <$> items = Some <$> vs.
Proof.
  induction 1 as [|x items (p & d & -> & Hd) _ (vs & IH)].
  - by exists [].
  - exists (d :: vs). cbn. by rewrite Hd, IH.
Qed.

Lemma lessAny_values (m : gmap addr ScoreDoc) x y vx vy :
  entry m x = Some vx → entry m y = Some vy →
  lessAny m x y = lessHit vx vy.
Proof. intros Hx Hy. unfold lessAny. by rewrite Hx, Hy. Qed.

Lemma elem_of_values (m : gmap addr ScoreDoc) (items : list any)
      (vs : list ScoreDoc) (v : ScoreDoc) :
  entry m <$> items = Some <$> vs → v ∈ vs →
  ∃ x, x ∈ items ∧ entry m x = Some v.
Proof.
  intros E Hv.
  assert (Some v ∈ entry m <$> items) as Hin
    by (rewrite E; by apply list_elem_of_fmap_2).
  apply list_elem_of_fmap in Hin as (x & Hx & Hxi). eauto.
Qed.

(** The two loops of [TopDocsRange] on a heap: the slots dropped first are
    the worst, the [hm] popped next fill the results best first, and the
    [start] slots left are the best. *)
Lemma discard_then_populate (m : gmap addr ScoreDoc) (start hm : nat)
      (items : list any) (ans : list ScoreDoc) :
  orderedStore m → live m items → heapOK m items (length items) →
  (start + hm ≤ length items)%nat → length ans = hm →
  ∃ items1 items2 rs worse better,
    heap.discard (length items - start - hm) m items = Ok items1 ∧
    TopDocsCollector.populateResults hm m items1 ans = Ok (items2, rs) ∧
    live m items2 ∧ heapOK m items2 (length items2) ∧
    length rs = hm ∧ length items2 = start ∧
    entry m <$> items2 = Some <$> better ∧
    entry m <$> items ≡ₚ Some <$> (worse ++ rs ++ better) ∧
    StronglySorted notBelow rs ∧
    (∀ r b, r ∈ rs → b ∈ better → notBelow b r) ∧
    (∀ r w, r ∈ rs → w ∈ worse → notBelow r w).
Proof.
  intros Hord Hl Hh Hlen Hans.
  destruct (heap_discard_heap m Hord (length items - start - hm) items Hl Hh)
    as (items1 & dropped & Hd & Hl1 & Hh1 & Hp1 & Hd1 & Hall1); [lia|].
  assert (length items1 = (start + hm)%nat) as HL1.
  { assert (length (dropped ++ items1) = length items) as E by by rewrite Hp1.
    rewrite length_app in E. lia. }
  destruct (populateResults_heap m Hord hm items1 ans Hl1 Hh1)
    as (items2 & rs & popped & Hpop & Hl2 & Hh2 & HR & _ & Hp2 & Hvals & Hsort & Hall2);
    [lia | lia |].
  rewrite take_ge in Hvals, Hsort by lia.
  assert (length popped = hm) as HLp.
  { assert (length (entry m <$> popped) = length rs) as E
      by (rewrite Hvals, length_fmap; apply length_reverse).
    rewrite length_fmap in E. lia. }
  assert (length items2 = start) as HL2.
  { assert (length (popped ++ items2) = length items1) as E by by rewrite Hp2.
    rewrite length_app in E. lia. }
  assert (live m dropped) as Hld.
  { assert (live m (dropped ++ items1)) as H
      by (eapply live_Permutation; [exact Hp1 | done]).
    by apply Forall_app in H as [H _]. }
  destruct (live_values m dropped Hld) as (worse & Hworse).
  destruct (live_values m items2 Hl2) as (better & Hbetter).
  exists items1, items2, rs, worse, better.
  split; [done|]. split; [done|]. split; [done|]. split; [done|].
  split; [lia|]. split; [done|]. split; [done|]. split.
  { rewrite <- Hp1, <- Hp2, !fmap_app, Hworse, Hvals, Hbetter.
    by rewrite fmap_reverse, reverse_Permutation. }
  split; [done|].
  assert (∀ r, r ∈ rs → ∃ x, x ∈ popped ∧ entry m x = Some r) as Hrs.
  { intros r Hr. apply (elem_of_values m popped (reverse rs)); [done|].
    by apply elem_of_reverse. }
  split.
  - intros r b Hr Hb. destruct (Hrs r Hr) as (x & Hx & Hxr).
    destruct (elem_of_values m items2 better b Hbetter Hb) as (y & Hy & Hyb).
    unfold notBelow. rewrite <- (lessAny_values m y x b r Hyb Hxr).
    by apply (Forall_Forall_elem_of _ _ _ Hall2).
  - intros r w Hr Hw. destruct (Hrs r Hr) as (x & Hx & Hxr).
    destruct (elem_of_values m dropped worse w Hworse Hw) as (y & Hy & Hyw).
    unfold notBelow. rewrite <- (lessAny_values m x y r w Hxr Hyw).
    apply (Forall_Forall_elem_of _ _ _ Hall1); [done|].
    rewrite <- Hp2, elem_of_app. tauto.
Qed.

(** The head of [TopDocsRange] on a valid range: the window after clamping. *)
Lemma TopDocsRange_unfold c start howMany :
  0 ≤ start < TopDocsCollector.topDocsSize c → 0 < howMany →
  ∃ s hm : nat,
    start = Z.of_nat s ∧
    Z.of_nat hm = Z.min howMany (TopDocsCollector.topDocsSize c - start) ∧
    (0 < hm)%nat ∧ (s + hm ≤ length (pq c))%nat ∧
    TopDocsCollector.TopDocsRange c start howMany
    = (items ← heap.discard (length (pq c) - s - hm) (objs c) (pq c);
       '(items', results') ←
         TopDocsCollector.populateResults hm (objs c) items
           (replicate hm (mkScoreDoc 0%float 0));
       TopDocsCollector.newTopDocs (with_pq c items') (Some results') start).
Proof.
  intros Hs Hh. unfold TopDocsCollector.TopDocsRange.
  pose proof (topDocsSize_le c) as [Hsz _].
  set (size := TopDocsCollector.topDocsSize c) in *.
  destruct (Z.ltb_spec start 0); [lia|].
  destruct (Z.leb_spec size start); [lia|].
  destruct (Z.leb_spec howMany 0); [lia|]. cbn [orb].
  set (hm := if size - start <? howMany then size - start else howMany).
  assert (hm = Z.min howMany (size - start)) as Hhm
    by (subst hm; destruct (Z.ltb_spec (size - start) howMany); lia).
  clearbody hm. unfold PriorityQueue.Len in *.
  exists (Z.to_nat start), (Z.to_nat hm).
  split; [lia|]. split; [lia|]. split; [lia|]. split; [lia|].
  by replace (Z.to_nat (Z.of_nat (length (pq c)) - start - hm))
    with (length (pq c) - Z.to_nat start - Z.to_nat hm)%nat by lia.
Qed.

(** X14.  On a heap of live pointers without NaN scores, a valid range is
    answered with the window it names: the entries of the queue split into
    the hits returned, [start] entries none of which is ranked below a
    returned hit, and the remaining entries, none of which is ranked above
    one; the number of hits is [howMany] clamped to
    [topDocsSize() - start]. *)
Theorem TopDocsRange_returns_the_window c start howMany :
  orderedStore (objs c) → live (objs c) (pq c) →
  heapOK (objs c) (pq c) (length (pq c)) →
  0 ≤ start < TopDocsCollector.topDocsSize c → 0 < howMany →
  ∃ td c' worse better,
    TopDocsCollector.TopDocsRange c start howMany = Ok (td, c') ∧
    entries c ≡ₚ Some <$> (worse ++ scoreDocs td ++ better) ∧
    Z.of_nat (length better) = start ∧
    Z.of_nat (length (scoreDocs td))
      = Z.min howMany (TopDocsCollector.topDocsSize c - start) ∧
    (∀ r b, r ∈ scoreDocs td → b ∈ better → notBelow b r) ∧
    (∀ r w, r ∈ scoreDocs td → w ∈ worse → notBelow r w).
Proof.
  intros Hord Hl Hh Hs Hhow.
  destruct (TopDocsRange_unfold c start howMany Hs Hhow)
    as (s & hm & -> & Hhm & Hpos & Hle & ->).
  destruct (discard_then_populate (objs c) s hm (pq c)
              (replicate hm (mkScoreDoc 0%float 0)) Hord Hl Hh Hle)
    as (items1 & items2 & rs & worse & better & -> & Hpop & Hl2 & _ & HR & HL2
        & Hbetter & Hperm & _ & Hb & Hw);
    [apply length_replicate|].
  rewrite bind_Ok, Hpop, bind_Ok.
  destruct (newTopDocs_live (with_pq c items2) rs (Z.of_nat s))
    as (td & c' & -> & Hrs & _); [done | | |].
  { intros _ ->. cbn in HR. lia. }
  { intros Hne. cbn. unfold PriorityQueue.Len. lia. }
  exists td, c', worse, better. rewrite Hrs. split; [done|].
  split; [exact Hperm|].
  assert (length better = s) as <-.
  { assert (length (entry (objs c) <$> items2) = length (Some <$> better)) as E
      by by rewrite Hbetter.
    rewrite !length_fmap in E. lia. }
  split; [done|]. split; [lia|]. by split.
Qed.

Lemma TopDocsRange_returns_the_window_witness :
  orderedStore (objs twoHits) ∧ live (objs twoHits) (pq twoHits) ∧
  heapOK (objs twoHits) (pq twoHits) (length (pq twoHits)) ∧
  0 ≤ 1 < TopDocsCollector.topDocsSize twoHits ∧ 0 < 1 ∧
  ∃ td c' worse better,
    TopDocsCollector.TopDocsRange twoHits 1 1 = Ok (td, c') ∧
    entries twoHits ≡ₚ Some <$> (worse ++ scoreDocs td ++ better) ∧
    Z.of_nat (length better) = 1 ∧
    Z.of_nat (length (scoreDocs td))
      = Z.min 1 (TopDocsCollector.topDocsSize twoHits - 1) ∧
    (∀ r b, r ∈ scoreDocs td → b ∈ better → notBelow b r) ∧
    (∀ r w, r ∈ scoreDocs td → w ∈ worse → notBelow r w).
Proof.
  assert (0 ≤ 1 < TopDocsCollector.topDocsSize twoHits) as Hs
    by (vm_compute; split; [discriminate | reflexivity]).
  assert (0 < 1) as Hh by reflexivity.
  split; [exact orderedStore_twoHits|]. split; [exact live_twoHits|].
  split; [exact heapOK_twoHits|]. split; [exact Hs|]. split; [exact Hh|].
  exact (TopDocsRange_returns_the_window twoHits 1 1 orderedStore_twoHits
           live_twoHits heapOK_twoHits Hs Hh).
Defined.

(** X15.  Extraction from a heap of live pointers: the hits come out best
    first, they are entries of the queue, and the maximum score reported
    by the score-ordered hook is the greatest score in the queue. *)
Theorem TopDocsRange_ranked c start howMany :
  orderedStore (objs c) → live (objs c) (pq c) →
  heapOK (objs c) (pq c) (length (pq c)) →
  0 ≤ start < TopDocsCollector.topDocsSize c → 0 < howMany →
  ∃ td c',
    TopDocsCollector.TopDocsRange c start howMany = Ok (td, c') ∧
    StronglySorted notBelow (scoreDocs td) ∧
    (∀ r, r ∈ scoreDocs td → Some r ∈ entries c) ∧
    (hook c = ScoreHook →
     (∃ e, Some e ∈ entries c ∧ maxScore td = score e) ∧
     (∀ e, Some e ∈ entries c →
           PrimFloat.leb (score e) (maxScore td) = true)).
Proof.
  intros Hord Hl Hh Hs Hhow. unfold TopDocsCollector.TopDocsRange.
  pose proof (topDocsSize_le c) as [Hsz _].
  set (size := TopDocsCollector.topDocsSize c) in *.
  destruct (Z.ltb_spec start 0); [lia|].
  destruct (Z.leb_spec size start); [lia|].
  destruct (Z.leb_spec howMany 0); [lia|]. cbn [orb].
  set (hm := if size - start <? howMany then size - start else howMany).
  assert (0 < hm ≤ size - start) as Hhm
    by (subst hm; destruct (Z.ltb_spec (size - start) howMany); lia).
  clearbody hm size. unfold PriorityQueue.Len in *.
  destruct (heap_discard_heap (objs c) Hord
              (Z.to_nat (Z.of_nat (length (pq c)) - start - hm)) (pq c) Hl Hh)
    as (items1 & dropped & -> & Hl1 & Hh1 & Hp1 & Hd1 & Hall1); [lia|].
  rewrite bind_Ok.
  assert (length items1 = Z.to_nat (start + hm)) as HL1.
  { assert (length (dropped ++ items1) = length (pq c)) as E by by rewrite Hp1.
    rewrite length_app in E. lia. }
  destruct (populateResults_heap (objs c) Hord (Z.to_nat hm) items1
              (replicate (Z.to_nat hm) (mkScoreDoc 0%float 0)) Hl1 Hh1)
    as (items2 & rs & popped & -> & Hl2 & Hh2 & HR & _ & Hp2 & Hvals & Hsort & Hall2);
    [lia | rewrite length_replicate; lia |].
  rewrite bind_Ok. rewrite length_replicate in HR.
  rewrite take_ge in Hvals, Hsort by lia.
  assert (length popped = Z.to_nat hm) as HLp.
  { assert (length (entry (objs c) <$> popped) = length rs) as E
      by (rewrite Hvals, length_fmap; apply length_reverse).
    rewrite length_fmap in E. lia. }
  assert (length items2 = Z.to_nat start) as HL2.
  { assert (length (popped ++ items2) = length items1) as E by by rewrite Hp2.
    rewrite length_app in E. lia. }
  (* where the entries of the queue went *)
  assert (∀ y, y ∈ pq c → y ∈ dropped ∨ y ∈ popped ∨ y ∈ items2) as Hsplit.
  { intros y Hy. rewrite <- Hp1, <- Hp2, !elem_of_app in Hy. tauto. }
  assert (∀ r, r ∈ rs → ∃ x, x ∈ popped ∧ entry (objs c) x = Some r) as Hrs.
  { intros r Hr.
    assert (Some r ∈ entry (objs c) <$> popped) as Hin
      by (rewrite Hvals; apply list_elem_of_fmap_2; by apply elem_of_reverse).
    apply list_elem_of_fmap in Hin as (x & Hx & Hxp). eauto. }
  assert (∀ r, r ∈ rs → Some r ∈ entries c) as Hmem.
  { intros r Hr. destruct (Hrs r Hr) as (x & Hx & Hex).
    unfold entries. rewrite <- Hex. apply list_elem_of_fmap_2.
    rewrite <- Hp1, <- Hp2, !elem_of_app. tauto. }
  destruct (hook c) eqn:Hhook.
  { (* the default hook reports no maximum *)
    cbn [TopDocsCollector.newTopDocs hook with_pq]. rewrite Hhook.
    eexists _, _. split; [done|]. cbn. by repeat split. }
  destruct (decide (start = 0)) as [->|Hne].
  - (* the first result is the best entry *)
    unfold TopDocsCollector.newTopDocs. cbn [hook with_pq]. rewrite Hhook.
    cbn [Z.eqb].
    destruct rs as [|r0 rs]; [cbn in HR; lia|].
    change (index (r0 :: rs) 0) with (Ok r0). rewrite bind_Ok.
    eexists _, _. split; [done|]. cbn [scoreDocs maxScore].
    split; [done|]. split; [done|]. intros _. split.
    { exists r0. split; [|done]. apply Hmem, list_elem_of_here. }
    intros e He. unfold entries in He.
    apply list_elem_of_fmap in He as (y & Hy & Hyq).
    destruct (Hrs r0 (list_elem_of_here _ _)) as (x0 & Hx0 & Hex0).
    destruct items2; [|cbn in HL2; lia].
    destruct (Hsplit y Hyq) as [Hyd|[Hyp|Hy2]];
      [| |by apply elem_of_nil in Hy2].
    + eapply (lessAny_leb (objs c) x0 y); try done.
      apply (Forall_Forall_elem_of _ _ _ Hall1); [done|].
      rewrite <- Hp2, elem_of_app. tauto.
    + assert (e ∈ r0 :: rs) as Her.
      { assert (Some e ∈ entry (objs c) <$> popped) as Hin
          by (rewrite Hy; by apply list_elem_of_fmap_2).
        rewrite Hvals in Hin.
        apply list_elem_of_fmap in Hin as (e' & He1 & He'). simplify_eq.
        exact (proj1 (elem_of_reverse _ _) He'). }
      apply notLess_leb.
      * eapply entry_ordered; [exact Hord | exact Hex0].
      * eapply entry_ordered; [exact Hord | by symmetry].
      * apply elem_of_cons in Her as [->|Her]; [apply lessHit_irrefl|].
        apply StronglySorted_inv in Hsort as [_ Hhd].
        by apply (proj1 (Forall_forall _ _) Hhd).
  - (* the last slot left in the queue is the best entry *)
    destruct (newTopDocs_best (with_pq c items2) rs start)
      as (td & c' & x & vx & -> & Hsd & Hx & Hvx & Hmax & Hbest);
      try done; [cbn; lia|].
    cbn [objs pq with_pq] in *.
    exists td, c'. split; [done|]. rewrite Hsd.
    split; [done|]. split; [done|]. intros _. split.
    { exists vx. split; [|done]. unfold entries. rewrite <- Hvx.
      apply list_elem_of_fmap_2.
      rewrite <- Hp1, <- Hp2, !elem_of_app. tauto. }
    intros e He. unfold entries in He.
    apply list_elem_of_fmap in He as (y & Hy & Hyq). rewrite Hmax.
    eapply (lessAny_leb (objs c) x y); try done.
    destruct (Hsplit y Hyq) as [Hyd|[Hyp|Hy2]].
    + apply (Forall_Forall_elem_of _ _ _ Hall1); [done|].
      rewrite <- Hp2, elem_of_app. tauto.
    + by apply (Forall_Forall_elem_of _ _ _ Hall2).
    + by apply (proj1 (Forall_forall _ _) Hbest).
Qed.



Lemma TopDocsRange_ranked_witness :
  orderedStore (objs twoHits) ∧ live (objs twoHits) (pq twoHits) ∧
  heapOK (objs twoHits) (pq twoHits) (length (pq twoHits)) ∧
  0 ≤ 1 < TopDocsCollector.topDocsSize twoHits ∧ 0 < 1 ∧
  ∃ td c',
    TopDocsCollector.TopDocsRange twoHits 1 1 = Ok (td, c') ∧
    StronglySorted notBelow (scoreDocs td) ∧
    (∀ r, r ∈ scoreDocs td → Some r ∈ entries twoHits) ∧
    (hook twoHits = ScoreHook →
     (∃ e, Some e ∈ entries twoHits ∧ maxScore td = score e) ∧
     (∀ e, Some e ∈ entries twoHits →
           PrimFloat.leb (score e) (maxScore td) = true)).
Proof.
  assert (0 ≤ 1 < TopDocsCollector.topDocsSize twoHits) as Hs
    by (vm_compute; split; [discriminate | reflexivity]).
  assert (0 < 1) as Hh by reflexivity.
  split; [exact orderedStore_twoHits|]. split; [exact live_twoHits|].
  split; [exact heapOK_twoHits|]. split; [exact Hs|]. split; [exact Hh|].
  exact (TopDocsRange_ranked twoHits 1 1 orderedStore_twoHits
           live_twoHits heapOK_twoHits Hs Hh).
Defined.

(** X16.  A valid extraction consumes the queue and nothing else: the
    objects and the counter are left alone and the result carries the
    counter.  With the hook of [newTocScoreDocCollector] the queue ends
    empty, so that every later extraction returns the empty result; with
    the default hook of [newTopDocsCollector] [start] entries stay in
    the queue and no maximum score is reported. *)
Theorem TopDocsRange_consumes_the_queue c start howMany :
  live (objs c) (pq c) →
  0 ≤ start < TopDocsCollector.topDocsSize c → 0 < howMany →
  ∃ td c',
    TopDocsCollector.TopDocsRange c start howMany = Ok (td, c') ∧
    objs c' = objs c ∧ TotalHits c' = TotalHits c ∧
    totalHits td = TotalHits c ∧
    match hook c with
    | ScoreHook =>
        pq c' = [] ∧
        ∀ start' howMany',
          TopDocsCollector.TopDocsRange c' start' howMany'
          = Ok (mkTopDocs 0 [] nan, c')
    | DefaultHook =>
        Z.of_nat (length (pq c')) = start ∧ maxScore td = nan
    end.
Proof.
  intros Hl Hs Hhow.
  destruct (TopDocsRange_unfold c start howMany Hs Hhow)
    as (s & hm & -> & Hhm & Hpos & Hle & ->).
  destruct (heap_discard_live (objs c) (length (pq c) - s - hm) (pq c) Hl)
    as (items1 & -> & Hl1 & HL1); [lia|].
  rewrite bind_Ok.
  destruct (populateResults_live (objs c) hm items1
              (replicate hm (mkScoreDoc 0%float 0)) Hl1)
    as (items2 & rs & -> & Hl2 & HL2 & HR);
    [lia | by rewrite length_replicate |].
  rewrite bind_Ok. rewrite length_replicate in HR.
  unfold TopDocsCollector.newTopDocs. cbn [hook with_pq objs pq TotalHits].
  destruct (hook c) eqn:Hhook.
  { eexists _, _. split; [done|]. cbn. repeat split; try done. lia. }
  assert (∀ c', pq c' = [] → ∀ start' howMany',
            TopDocsCollector.TopDocsRange c' start' howMany'
            = Ok (mkTopDocs 0 [] nan, c')) as Hempty.
  { intros c' Hq start' howMany'. apply TopDocsRange_bad_range.
    unfold TopDocsCollector.topDocsSize, PriorityQueue.Len. rewrite Hq.
    cbn [length]. destruct (Z.leb_spec (Z.of_nat 0) (TotalHits c')); lia. }
  destruct (Z.eqb_spec (Z.of_nat s) 0) as [H0|Hne].
  - destruct rs as [|r0 rs]; [cbn in HR; lia|].
    change (index (r0 :: rs) 0) with (Ok r0). rewrite bind_Ok.
    assert (items2 = []) as -> by (apply length_zero_iff_nil; lia).
    eexists _, _. split; [done|]. cbn [objs TotalHits totalHits pq with_pq].
    repeat split; try done. by apply Hempty.
  - destruct (heap_discard_live (objs c)
                (Z.to_nat (PriorityQueue.Len items2 - 1)) items2 Hl2)
      as (items3 & -> & Hl3 & HL3); [unfold PriorityQueue.Len; lia|].
    rewrite bind_Ok.
    destruct (heap_Pop_live (objs c) items3 Hl3) as (x & items4 & -> & _ & Hp);
      [unfold PriorityQueue.Len in *; lia|].
    rewrite bind_Ok.
    destruct (live_cons_inv (objs c) x items4) as [(p & d & -> & Hd) _];
      [by eapply live_Permutation|].
    cbn [assertPtr]. rewrite bind_Ok. unfold deref. rewrite Hd, bind_Ok.
    assert (items4 = []) as ->.
    { apply length_zero_iff_nil.
      assert (length (AnyPtr p :: items4) = length items3) as E by by rewrite Hp.
      cbn [length] in E. unfold PriorityQueue.Len in HL3. lia. }
    eexists _, _. split; [done|]. cbn [objs TotalHits totalHits pq with_pq].
    repeat split; try done. by apply Hempty.
Qed.

Lemma TopDocsRange_consumes_the_queue_witness :
  live (objs twoHits) (pq twoHits) ∧
  0 ≤ 1 < TopDocsCollector.topDocsSize twoHits ∧ 0 < 1 ∧
  ∃ td c',
    TopDocsCollector.TopDocsRange twoHits 1 1 = Ok (td, c') ∧
    objs c' = objs twoHits ∧ TotalHits c' = TotalHits twoHits ∧
    totalHits td = TotalHits twoHits ∧
    pq c' = [] ∧
    ∀ start' howMany',
      TopDocsCollector.TopDocsRange c' start' howMany'
      = Ok (mkTopDocs 0 [] nan, c').
Proof.
  assert (0 ≤ 1 < TopDocsCollector.topDocsSize twoHits) as Hs
    by (vm_compute; split; [discriminate | reflexivity]).
  assert (0 < 1) as Hh by reflexivity.
  split; [exact live_twoHits|]. split; [exact Hs|]. split; [exact Hh|].
  exact (TopDocsRange_consumes_the_queue twoHits 1 1 live_twoHits Hs Hh).
Defined.

(** X17.  [TopDocs()] on a heap of live pointers without NaN scores returns
    the [topDocsSize()] best entries of the queue, best first, and leaves
    the queue empty: the entries split into the hits returned and entries
    none of which is ranked above a returned hit.  The result carries the
    counter and, with the hook of [newTocScoreDocCollector], the score of
    its first hit as the maximum. *)
Theorem TopDocs_returns_the_best_entries c :
  orderedStore (objs c) → live (objs c) (pq c) →
  heapOK (objs c) (pq c) (length (pq c)) →
  0 < TopDocsCollector.topDocsSize c →
  ∃ td c' worse,
    TopDocsCollector.TopDocs c = Ok (td, c') ∧
    entries c ≡ₚ Some <$> (worse ++ scoreDocs td) ∧
    Z.of_nat (length (scoreDocs td)) = TopDocsCollector.topDocsSize c ∧
    StronglySorted notBelow (scoreDocs td) ∧
    (∀ r w, r ∈ scoreDocs td → w ∈ worse → notBelow r w) ∧
    totalHits td = TotalHits c ∧
    pq c' = [] ∧
    (hook c = ScoreHook →
     ∃ r0, head (scoreDocs td) = Some r0 ∧ maxScore td = score r0).
Proof.
  intros Hord Hl Hh Hpos. unfold TopDocsCollector.TopDocs.
  destruct (TopDocsRange_unfold c 0 (TopDocsCollector.topDocsSize c))
    as (s & hm & H0 & Hhm & _ & Hle & ->); [lia | lia |].
  assert (s = 0%nat) as -> by lia.
  destruct (discard_then_populate (objs c) 0 hm (pq c)
              (replicate hm (mkScoreDoc 0%float 0)) Hord Hl Hh Hle)
    as (items1 & items2 & rs & worse & better & -> & Hpop & _ & _ & HR & HL2
        & Hbetter & Hperm & Hsort & _ & Hw);
    [apply length_replicate|].
  rewrite bind_Ok, Hpop, bind_Ok.
  assert (items2 = []) as -> by by apply length_zero_iff_nil.
  assert (better = []) as -> by (by destruct better).
  rewrite app_nil_r in Hperm.
  destruct rs as [|r0 rs]; [cbn in HR; lia|].
  unfold TopDocsCollector.newTopDocs. cbn [hook with_pq objs pq TotalHits].
  destruct (hook c) eqn:Hhook.
  - eexists _, _, worse. split; [done|]. cbn [scoreDocs totalHits pq].
    repeat split; try done. lia.
  - change (index (r0 :: rs) 0) with (Ok r0). rewrite bind_Ok.
    eexists _, _, worse. split; [done|]. cbn [scoreDocs totalHits maxScore pq].
    repeat split; try done; [lia|]. by exists r0.
Qed.

Lemma TopDocs_returns_the_best_entries_witness :
  orderedStore (objs twoHits) ∧ live (objs twoHits) (pq twoHits) ∧
  heapOK (objs twoHits) (pq twoHits) (length (pq twoHits)) ∧
  0 < TopDocsCollector.topDocsSize twoHits ∧
  ∃ td c' worse,
    TopDocsCollector.TopDocs twoHits = Ok (td, c') ∧
    entries twoHits ≡ₚ Some <$> (worse ++ scoreDocs td) ∧
    Z.of_nat (length (scoreDocs td)) = TopDocsCollector.topDocsSize twoHits ∧
    StronglySorted notBelow (scoreDocs td) ∧
    (∀ r w, r ∈ scoreDocs td → w ∈ worse → notBelow r w) ∧
    totalHits td = TotalHits twoHits ∧
    pq c' = [] ∧
    (hook twoHits = ScoreHook →
     ∃ r0, head (scoreDocs td) = Some r0 ∧ maxScore td = score r0).
Proof.
  assert (0 < TopDocsCollector.topDocsSize twoHits) as Hs by reflexivity.
  split; [exact orderedStore_twoHits|]. split; [exact live_twoHits|].
  split; [exact heapOK_twoHits|]. split; [exact Hs|].
  exact (TopDocs_returns_the_best_entries twoHits orderedStore_twoHits
           live_twoHits heapOK_twoHits Hs).
Defined.



(** ** A queue of one slot *)

Lemma Collect_single_slot c scr d top :
  pq c = [AnyPtr (pqTop c)] → objs c !! pqTop c = Some top →
  ∃ c',
    Collect c scr d = Ok c' ∧
    pq c' = [AnyPtr (pqTop c')] ∧ pqTop c' = pqTop c ∧ hook c' = hook c ∧
    ∃ top', objs c' !! pqTop c' = Some top'.
Proof.
  intros Hq Ht. unfold Collect, deref. rewrite Ht, bind_Ok.
  destruct (PrimFloat.leb scr (score top)).
  - eexists. split; [done|]. cbn. eauto.
  - rewrite Hq. eexists. split; [reflexivity|]. cbn.
    repeat split; try done. rewrite lookup_insert_eq. eauto.
Qed.

Lemma collectAll_single_slot (hits : list (float * Z)) :
  ∀ c top,
  pq c = [AnyPtr (pqTop c)] → objs c !! pqTop c = Some top →
  ∃ c',
    collectAll c hits = Ok c' ∧
    pq c' = [AnyPtr (pqTop c)] ∧ pqTop c' = pqTop c ∧ hook c' = hook c.
Proof.
  induction hits as [|[scr d] hits IH]; intros c top Hq Ht.
  - by exists c.
  - cbn [collectAll].
    destruct (Collect_single_slot c scr d top Hq Ht)
      as (c1 & -> & Hq1 & Hp1 & Hh1 & top1 & Ht1).
    rewrite bind_Ok.
    destruct (IH c1 top1 Hq1 Ht1) as (c' & -> & Hq' & Hp' & Hh').
    exists c'. split; [done|]. split; [congruence|]. split; congruence.
Qed.

Lemma TopDocs_single_slot c p e :
  pq c = [AnyPtr p] → objs c !! p = Some e → hook c = ScoreHook →
  0 < TotalHits c →
  TopDocsCollector.TopDocs c
  = Ok (mkTopDocs (TotalHits c) [e] (score e), with_pq c []).
Proof.
  intros Hq He Hhook Hn.
  unfold TopDocsCollector.TopDocs, TopDocsCollector.TopDocsRange,
    TopDocsCollector.topDocsSize, PriorityQueue.Len.
  rewrite Hq. cbn [length].
  destruct (Z.leb_spec (Z.of_nat 1) (TotalHits c)); [|lia].
  change (Z.of_nat 1) with 1. cbn [Z.ltb Z.leb Z.compare orb].
  change (Z.to_nat (1 - 0 - (if 1 - 0 <? 1 then 1 - 0 else 1))) with 0%nat.
  change (Z.to_nat (if 1 - 0 <? 1 then 1 - 0 else 1)) with 1%nat.
  cbn [heap.discard replicate]. rewrite bind_Ok.
  cbn [TopDocsCollector.populateResults].
  change (heap.Pop (objs c) [AnyPtr p]) with (Ok (AnyPtr p, @nil any)).
  rewrite bind_Ok. cbn [assertPtr]. rewrite bind_Ok.
  unfold deref. rewrite He, bind_Ok.
  change (index [mkScoreDoc 0%float 0] (Z.of_nat 0)) with (Ok (mkScoreDoc 0%float 0)).
  rewrite !bind_Ok. cbn [insert list_insert].
  unfold TopDocsCollector.newTopDocs. cbn [hook with_pq]. by rewrite Hhook.
Qed.

(** X18.  A collector whose queue is the one slot behind the handle does
    what a top-1 collector should.  After any run of hits without NaN
    scores [TopDocs()] returns exactly one hit, with its score as the
    maximum and the number of calls added to the counter; that hit is not
    beaten by any submitted score, and it is the entry the run started
    with unless a submitted hit scored strictly higher, so that of two
    hits with the same score the earlier one is kept. *)
Theorem single_slot_collector_keeps_the_best
        (c : Collector) (top : ScoreDoc) (hits : list (float * Z)) :
  pq c = [AnyPtr (pqTop c)] → objs c !! pqTop c = Some top →
  hook c = ScoreHook → ordered top →
  Forall (λ h, PrimFloat.eqb h.1 h.1 = true) hits →
  0 ≤ TotalHits c → 0 < TotalHits c + Z.of_nat (length hits) ≤ MaxInt →
  ∃ c' e,
    collectAll c hits = Ok c' ∧
    TopDocsCollector.TopDocs c'
    = Ok (mkTopDocs (TotalHits c + Z.of_nat (length hits)) [e] (score e),
          with_pq c' []) ∧
    PrimFloat.leb (score top) (score e) = true ∧
    (∀ h, h ∈ hits → PrimFloat.leb h.1 (score e) = true) ∧
    (e = top ∨
     PrimFloat.ltb (score top) (score e) = true ∧
     ∃ h, h ∈ hits ∧ e = hit c h.1 h.2).
Proof.
  intros Hq Ht Hhook Ho Hs H0 Hn.
  assert (live (objs c) (pq c)) as Hl.
  { rewrite Hq. apply Forall_singleton. by exists (pqTop c), top. }
  assert (AnyPtr (pqTop c) ∈ pq c) as Hin
    by (rewrite Hq; apply list_elem_of_here).
  destruct (collectAll_best hits c top Hl Hin Ht Ho Hs)
    as (c' & e & Hc & He & _ & Hle & Hall & Hor).
  destruct (collectAll_single_slot hits c top Hq Ht)
    as (c2 & Hc2 & Hq' & Hp' & Hh').
  rewrite Hc in Hc2. injection Hc2 as <-.
  destruct (collectAll_total hits c Hl Hin H0) as (c2 & Hc2 & _ & _ & _ & Hcount);
    [lia|].
  rewrite Hc in Hc2. injection Hc2 as <-.
  exists c', e. split; [done|]. split; [|done].
  rewrite <- Hcount.
  apply (TopDocs_single_slot c' (pqTop c) e); [done | done | congruence | lia].
Qed.

Lemma single_slot_collector_keeps_the_best_witness :
  pq fiveSeen = [AnyPtr (pqTop fiveSeen)] ∧
  objs fiveSeen !! pqTop fiveSeen = Some (mkScoreDoc 9 103) ∧
  hook fiveSeen = ScoreHook ∧ ordered (mkScoreDoc 9 103) ∧
  Forall (λ h : float * Z, PrimFloat.eqb h.1 h.1 = true)
         [(9%float, 104); (10%float, 105); (10%float, 106)] ∧
  0 ≤ TotalHits fiveSeen ∧
  0 < TotalHits fiveSeen + 3 ≤ MaxInt ∧
  ∃ c' e,
    collectAll fiveSeen [(9%float, 104); (10%float, 105); (10%float, 106)]
      = Ok c' ∧
    TopDocsCollector.TopDocs c'
    = Ok (mkTopDocs 8 [e] (score e), with_pq c' []) ∧
    PrimFloat.leb 10 (score e) = true.
Proof.
  assert (objs fiveSeen !! pqTop fiveSeen = Some (mkScoreDoc 9 103)) as Ht
    by reflexivity.
  assert (ordered (mkScoreDoc 9 103)) as Ho by reflexivity.
  assert (Forall (λ h : float * Z, PrimFloat.eqb h.1 h.1 = true)
                 [(9%float, 104); (10%float, 105); (10%float, 106)]) as Hs
    by (repeat constructor).
  assert (0 ≤ TotalHits fiveSeen) as H0 by discriminate.
  assert (0 < TotalHits fiveSeen
              + Z.of_nat (length [(9%float, 104); (10%float, 105); (10%float, 106)])
          ≤ MaxInt) as Hn by (split; [reflexivity | discriminate]).
  split; [reflexivity|]. split; [exact Ht|]. split; [reflexivity|].
  split; [exact Ho|]. split; [exact Hs|]. split; [exact H0|].
  split; [exact Hn|].
  destruct (single_slot_collector_keeps_the_best fiveSeen _ _
              eq_refl Ht eq_refl Ho Hs H0 Hn)
    as (c' & e & Hc & Htd & _ & Hall & _).
  exists c', e. split; [exact Hc|]. split; [exact Htd|].
  exact (Hall (10%float, 105) (list_elem_of_further _ _ _ (list_elem_of_here _ _))).
Defined.
